(** * Inverted index ([final_task.py]): model and verification

    The development embeds the core of [final_task.py] -- the inline
    tokenizer [text.lower().split()], [build_inverted_index],
    [InvertedIndex.query], [InvertedIndex.dump] and [InvertedIndex.load] --
    together with the part of CPython's [json] module that [dump] and
    [load] run through: the encoder on a [Dict[str, List[int]]] and the
    complete decoder.

    Conventions.
    - A Python [str] is a list of Unicode code points ([N], below
      [0x110000]); surrogate code points are legal elements of a [str].
    - A Python [int] is a [Z].
    - A Python [dict] is an association list in insertion order whose keys
      are pairwise distinct.
    - An operation that can raise returns a [result].
    - A file is the text it holds.  The encoder writes printable ASCII only
      ([dumps_printable]), so the encoding the file is opened with plays no
      role for what [dump] writes.

    Not modelled: failures of [open] other than a missing file on reading,
    bytes that do not decode to text, the interpreter's recursion limit and
    its limit on the number of digits of an [int] literal.

    Around the core stands the command-line layer: [load_documents],
    [process_build] and [callback_build], [callback_query] and
    [process_query], with [str.strip], [str.split] on a separator, the
    iteration over the lines of a file and the dynamic operations [query]
    performs on whatever object [load] returned.  The builtins [int] and
    [repr] are an interface ([Builtins]).  What [argparse] does is taken from
    the declarations of [setup_subparsers]: [-q] collects one list of terms
    per use, [--query_from_file] opens the file.  The parsing of the command
    line, [EncodedFileType], [main] and the text [print] makes of a list are
    not modelled.

    Characters appear by code.  The ones the code tests for: 34 the double
    quote, 92 the backslash, 47 the slash, 44 the comma, 58 the colon, 91
    and 93 the square brackets, 123 and 125 the braces, 45 minus, 43 plus,
    46 the full stop, 48..57 the digits, 101 and 69 the letters e and E,
    117 u, 110 n, 116 t, 102 f, 98 b, 114 r, 78 N, 73 I, 32 the space,
    9 the tab, 10 the line feed, 13 the carriage return, 8 the backspace,
    12 the form feed, 65279 the byte-order mark. *)

From Stdlib Require Import ZArith NArith Lia String Ascii.
From Stdlib Require Import Decimal DecimalN DecimalPos DecimalFacts.
From stdpp Require Import base option list gmap.

Local Open Scope N_scope.
Set Warnings "-register-all".

(** ** Exceptions *)

Inductive exn : Type :=
| KeyError
| JSONDecodeError
| RecursionError
| FileNotFoundError
| TypeError.

Inductive result (A : Type) : Type :=
| Ok (a : A)
| Raise (e : exn).
Arguments Ok {A} a.
Arguments Raise {A} e.

#[global] Instance result_ret : MRet result := fun A a => Ok a.
#[global] Instance result_bind : MBind result := fun A B f m =>
  match m with
  | Ok a => f a
  | Raise e => Raise e
  end.

Definition raises {A} (m : result A) : Prop := exists e, m = Raise e.

(** ** Strings *)

Definition pystr : Type := list N.

(** [ord] of every character of an ASCII literal. *)
Definition str (s : string) : pystr := N_of_ascii <$> list_ascii_of_string s.

(** The same, reading every apostrophe as a double quote, to write JSON text. *)
Definition jtext (s : string) : pystr :=
  (fun c => if c =? 39 then 34 else c) <$> str s.

(** [Py_UNICODE_ISSPACE]: the characters [str.split()] separates on. *)
Definition isspace (c : N) : bool :=
  ((9 <=? c) && (c <=? 13)) || ((28 <=? c) && (c <=? 32))
  || (c =? 133) || (c =? 160) || (c =? 5760)
  || ((8192 <=? c) && (c <=? 8202))
  || (c =? 8232) || (c =? 8233) || (c =? 8239) || (c =? 8287) || (c =? 12288).

(** [str.split()] without arguments.  [word] is the slice [s[j:i]] of the
    run being scanned; it is empty while the scanner skips whitespace. *)
Fixpoint split_run (s : pystr) (word : pystr) : list pystr :=
  match s with
  | [] => match word with [] => [] | _ => [word] end
  | c :: s' =>
      if isspace c
      then match word with
           | [] => split_run s' []
           | _ => word :: split_run s' []
           end
      else split_run s' (word ++ [c])
  end.

Definition split (s : pystr) : list pystr := split_run s [].

(** [str.lower()] on one ASCII character. *)
Definition ascii_tolower (c : N) : N :=
  if (65 <=? c) && (c <=? 90) then c + 32 else c.

(** [str.lower()] consults the interpreter's Unicode database, which is not
    part of the program.  It is taken as an interface: any function that
    agrees with CPython on ASCII text. *)
Class UnicodeData : Type := {
  lower : pystr -> pystr;
  lower_ascii : forall s, Forall (fun c => c < 128) s -> lower s = ascii_tolower <$> s
}.

(** An implementation of the interface, exact on ASCII text. *)
#[global, refine] Instance ascii_data : UnicodeData := {| lower := fmap ascii_tolower |}.
Proof. reflexivity. Defined.

(** ** Dictionaries *)

Definition dict (K V : Type) : Type := list (K * V).

Section Dict.
Context {K V : Type} `{EqDecision K}.

Fixpoint dict_lookup (k : K) (d : dict K V) : option V :=
  match d with
  | [] => None
  | (k', v) :: d' => if decide (k = k') then Some v else dict_lookup k d'
  end.

(** [k in d] *)
Definition dict_contains (k : K) (d : dict K V) : bool :=
  match dict_lookup k d with Some _ => true | None => false end.

(** [d[k]] *)
Definition dict_getitem (k : K) (d : dict K V) : result V :=
  match dict_lookup k d with Some v => Ok v | None => Raise KeyError end.

(** [d[k] = v]: an existing key keeps its position, a new one goes last. *)
Fixpoint dict_setitem (k : K) (v : V) (d : dict K V) : dict K V :=
  match d with
  | [] => [(k, v)]
  | (k', v') :: d' =>
      if decide (k = k') then (k', v) :: d' else (k', v') :: dict_setitem k v d'
  end.

Definition keys (d : dict K V) : list K := fst <$> d.

(** The representation invariant of a [dict]. *)
Definition dict_wf (d : dict K V) : Prop := NoDup (keys d).
End Dict.

(** ** The index and its builder *)

Record InvertedIndex : Type := mkInvertedIndex { words_ids : dict pystr (list Z) }.

Section Build.
Context `{UnicodeData}.

(** [text.lower().split()] *)
Definition tokenize (text : pystr) : list pystr := split (lower text).

(** The inner loop, [for word in cleaned_text]. *)
Fixpoint index_words (doc_id : Z) (cleaned_text : list pystr)
    (words_ids : dict pystr (list Z)) : result (dict pystr (list Z)) :=
  match cleaned_text with
  | [] => mret words_ids
  | word :: rest =>
      let words_ids :=
        if negb (dict_contains word words_ids)
        then dict_setitem word [] words_ids
        else words_ids in
      postings ← dict_getitem word words_ids;
      index_words doc_id rest (dict_setitem word (postings ++ [doc_id]) words_ids)
  end.

(** The outer loop, [for doc_id, text in documents.items()]. *)
Fixpoint index_documents (items : dict Z pystr)
    (words_ids : dict pystr (list Z)) : result (dict pystr (list Z)) :=
  match items with
  | [] => mret words_ids
  | (doc_id, text) :: rest =>
      words_ids ← index_words doc_id (tokenize text) words_ids;
      index_documents rest words_ids
  end.

Definition build_inverted_index (documents : dict Z pystr) : result InvertedIndex :=
  words_ids ← index_documents documents [];
  mret (mkInvertedIndex words_ids).
End Build.

(** ** Query *)

Fixpoint query_loop (words_ids : dict pystr (list Z)) (words : list pystr)
    (doc_indexes : list Z) : result (list Z) :=
  match words with
  | [] => mret doc_indexes
  | word :: rest =>
      if dict_contains word words_ids
      then postings ← dict_getitem word words_ids;
           query_loop words_ids rest (doc_indexes ++ postings)
      else query_loop words_ids rest doc_indexes
  end.

Definition query (self : InvertedIndex) (words : list pystr) : result (list Z) :=
  query_loop (words_ids self) words [].


(** ** [json]: the encoder on a [Dict[str, List[int]]]

    [json.dump] is called with its defaults: [ensure_ascii=True], the
    separators [", "] and [": "], no indentation, keys in insertion order. *)

Definition hex_char (d : N) : N := if d <? 10 then 48 + d else 87 + d.

(** ['\\u{0:04x}'.format(n)] *)
Definition u_escape (n : N) : pystr :=
  [92; 117; hex_char (n / 4096); hex_char ((n / 256) mod 16);
   hex_char ((n / 16) mod 16); hex_char (n mod 16)].

(** The two halves of the surrogate pair that stands for a character
    beyond the basic plane. *)
Definition high_surrogate (c : N) : N :=
  N.lor 55296 (N.land (N.shiftr (c - 65536) 10) 1023).

Definition low_surrogate (c : N) : N :=
  N.lor 56320 (N.land (c - 65536) 1023).

(** The replacement of one character by [encode_basestring_ascii]. *)
Definition escape_char (c : N) : pystr :=
  if c =? 34 then [92; 34]
  else if c =? 92 then [92; 92]
  else if c =? 10 then [92; 110]
  else if c =? 13 then [92; 114]
  else if c =? 9 then [92; 116]
  else if c =? 12 then [92; 102]
  else if c =? 8 then [92; 98]
  else if (32 <=? c) && (c <=? 126) then [c]
  else if c <? 65536 then u_escape c
  else u_escape (high_surrogate c) ++ u_escape (low_surrogate c).

Definition encode_basestring_ascii (s : pystr) : pystr :=
  [34] ++ (s ≫= escape_char) ++ [34].

Fixpoint chars_of_uint (d : uint) : pystr :=
  match d with
  | Nil => []
  | D0 d => 48 :: chars_of_uint d
  | D1 d => 49 :: chars_of_uint d
  | D2 d => 50 :: chars_of_uint d
  | D3 d => 51 :: chars_of_uint d
  | D4 d => 52 :: chars_of_uint d
  | D5 d => 53 :: chars_of_uint d
  | D6 d => 54 :: chars_of_uint d
  | D7 d => 55 :: chars_of_uint d
  | D8 d => 56 :: chars_of_uint d
  | D9 d => 57 :: chars_of_uint d
  end.

(** [int.__repr__]: the decimal digits, after a minus sign when negative. *)
Definition int_repr (z : Z) : pystr :=
  match z with
  | Z0 => [48]
  | Zpos p => chars_of_uint (Pos.to_uint p)
  | Zneg p => 45 :: chars_of_uint (Pos.to_uint p)
  end.

(** The encoder emits the separator before every item but the first. *)
Fixpoint join_rest (sep : pystr) (items : list pystr) : pystr :=
  match items with
  | [] => []
  | item :: items => sep ++ item ++ join_rest sep items
  end.

Definition join (sep : pystr) (items : list pystr) : pystr :=
  match items with
  | [] => []
  | item :: items => item ++ join_rest sep items
  end.

Definition encode_list (l : list Z) : pystr :=
  [91] ++ join [44; 32] (int_repr <$> l) ++ [93].

Definition encode_item (item : pystr * list Z) : pystr :=
  encode_basestring_ascii item.1 ++ [58; 32] ++ encode_list item.2.

Definition dumps (d : dict pystr (list Z)) : pystr :=
  [123] ++ join [44; 32] (encode_item <$> d) ++ [125].

(** ** [json]: the decoder

    What [json.load] can return.  A float keeps the text of its literal: its
    IEEE value plays no role here. *)

Inductive pyval : Type :=
| PyNone
| PyBool (b : bool)
| PyInt (z : Z)
| PyFloat (literal : pystr)
| PyStr (s : pystr)
| PyList (l : list pyval)
| PyDict (d : dict pystr pyval).

Definition is_ws (c : N) : bool := (c =? 32) || (c =? 9) || (c =? 10) || (c =? 13).

Fixpoint skip_ws (s : pystr) : pystr :=
  match s with
  | c :: s' => if is_ws c then skip_ws s' else s
  | [] => []
  end.

Definition hex_value (c : N) : option N :=
  if (48 <=? c) && (c <=? 57) then Some (c - 48)
  else if (97 <=? c) && (c <=? 102) then Some (c - 87)
  else if (65 <=? c) && (c <=? 70) then Some (c - 55)
  else None.

(** Four hex digits, accumulated by [c <<= 4; c |= digit]. *)
Definition decode_hex4 (h1 h2 h3 h4 : N) : option N :=
  d1 ← hex_value h1; d2 ← hex_value h2; d3 ← hex_value h3; d4 ← hex_value h4;
  Some (N.lor (N.shiftl (N.lor (N.shiftl (N.lor (N.shiftl d1 4) d2) 4) d3) 4) d4).

Definition is_high_surrogate (c : N) : bool := (55296 <=? c) && (c <=? 56319).
Definition is_low_surrogate (c : N) : bool := (56320 <=? c) && (c <=? 57343).

(** [Py_UNICODE_JOIN_SURROGATES] *)
Definition join_surrogates (hi lo : N) : N :=
  65536 + N.lor (N.shiftl (N.land hi 1023) 10) (N.land lo 1023).

(** The character a two-character escape stands for. *)
Definition unescape (e : N) : option N :=
  if e =? 34 then Some 34
  else if e =? 92 then Some 92
  else if e =? 47 then Some 47
  else if e =? 98 then Some 8
  else if e =? 102 then Some 12
  else if e =? 110 then Some 10
  else if e =? 114 then Some 13
  else if e =? 116 then Some 9
  else None.

Definition push (c : N) (r : result (pystr * pystr)) : result (pystr * pystr) :=
  '(chunk, rest) ← r; Ok (c :: chunk, rest).

(** [scanstring] in strict mode, entered after the opening quote: the
    decoded string and the text after the closing quote. *)
Fixpoint scanstring (s : pystr) : result (pystr * pystr) :=
  match s with
  | [] => Raise JSONDecodeError
  | c :: s1 =>
      if c =? 34 then Ok ([], s1)
      else if c =? 92 then
        match s1 with
        | [] => Raise JSONDecodeError
        | e :: s2 =>
            if e =? 117 then
              match s2 with
              | h1 :: h2 :: h3 :: h4 :: ((_ :: _) as s3) =>
                  match decode_hex4 h1 h2 h3 h4 with
                  | None => Raise JSONDecodeError
                  | Some uni =>
                      if is_high_surrogate uni then
                        match s3 with
                        | b :: u :: g1 :: g2 :: g3 :: g4 :: ((_ :: _) as s4) =>
                            if (b =? 92) && (u =? 117) then
                              match decode_hex4 g1 g2 g3 g4 with
                              | None => Raise JSONDecodeError
                              | Some uni2 =>
                                  if is_low_surrogate uni2
                                  then push (join_surrogates uni uni2) (scanstring s4)
                                  else push uni (scanstring s3)
                              end
                            else push uni (scanstring s3)
                        | _ => push uni (scanstring s3)
                        end
                      else push uni (scanstring s3)
                  end
              | _ => Raise JSONDecodeError
              end
            else
              match unescape e with
              | Some c' => push c' (scanstring s2)
              | None => Raise JSONDecodeError
              end
        end
      else if c <=? 31 then Raise JSONDecodeError
      else push c (scanstring s1)
  end.

Definition is_digit (c : N) : bool := (48 <=? c) && (c <=? 57).

(** The longest run of decimal digits at the head of [s], and what follows. *)
Fixpoint span_digits (s : pystr) : pystr * pystr :=
  match s with
  | c :: s' =>
      if is_digit c then let '(ds, rest) := span_digits s' in (c :: ds, rest)
      else ([], s)
  | [] => ([], [])
  end.

Fixpoint uint_of_digits (ds : pystr) : uint :=
  match ds with
  | [] => Nil
  | c :: ds =>
      let d := uint_of_digits ds in
      if c =? 48 then D0 d else if c =? 49 then D1 d else if c =? 50 then D2 d
      else if c =? 51 then D3 d else if c =? 52 then D4 d else if c =? 53 then D5 d
      else if c =? 54 then D6 d else if c =? 55 then D7 d else if c =? 56 then D8 d
      else D9 d
  end.

(** [int(numstr)] on an optional minus sign and decimal digits. *)
Definition int_of_literal (negative : bool) (digits : pystr) : Z :=
  let n := Z.of_N (N.of_uint (uint_of_digits digits)) in
  if negative then (- n)%Z else n.

(** [_match_number] reads a sign, the integer part, then a fraction and
    an exponent when they are complete: the scanner backtracks before an
    incomplete one.  Each phase returns what it read and what follows. *)
Definition scan_sign (s : pystr) : bool * pystr :=
  match s with
  | c :: s' => if c =? 45 then (true, s') else (false, s)
  | [] => (false, s)
  end.

Definition scan_integer (s : pystr) : option (pystr * pystr) :=
  match s with
  | [] => None
  | d :: s' =>
      if (49 <=? d) && (d <=? 57)
      then let '(ds, rest) := span_digits s' in Some (d :: ds, rest)
      else if d =? 48 then Some ([d], s')
      else None
  end.

Definition scan_fraction (s : pystr) : pystr * pystr :=
  match s with
  | dot :: f :: _ =>
      if (dot =? 46) && is_digit f
      then let '(ds, rest) := span_digits (tail s) in (dot :: ds, rest)
      else ([], s)
  | _ => ([], s)
  end.

Definition scan_exponent (s : pystr) : pystr * pystr :=
  match s with
  | e :: after_e =>
      if (e =? 101) || (e =? 69) then
        let '(sign, s') :=
          match after_e with
          | sg :: (_ :: _) as s'' =>
              if (sg =? 45) || (sg =? 43) then ([sg], s'') else ([], after_e)
          | _ => ([], after_e)
          end in
        let '(ds, rest) := span_digits s' in
        match ds with
        | [] => ([], s)
        | _ => (e :: sign ++ ds, rest)
        end
      else ([], s)
  | [] => ([], s)
  end.

Definition match_number (s : pystr) : result (pyval * pystr) :=
  let '(negative, s1) := scan_sign s in
  match scan_integer s1 with
  | None => Raise JSONDecodeError
  | Some (digits, s2) =>
      let '(frac, s3) := scan_fraction s2 in
      let '(exponent, s4) := scan_exponent s3 in
      match frac, exponent with
      | [], [] => Ok (PyInt (int_of_literal negative digits), s4)
      | _, _ =>
          Ok (PyFloat ((if negative then [45] else []) ++ digits ++ frac ++ exponent), s4)
      end
  end.

(** [s] starts with the characters of [word]: what follows them. *)
Fixpoint strip_prefix (word s : pystr) : option pystr :=
  match word, s with
  | [], _ => Some s
  | w :: word, c :: s => if w =? c then strip_prefix word s else None
  | _ :: _, [] => None
  end.

(** The named constants [scan_once] tries, by first character, before it
    looks for a number. *)
Definition scan_constant (s : pystr) : option (pyval * pystr) :=
  match s with
  | [] => None
  | c :: _ =>
      if c =? 110 then (fun rest => (PyNone, rest)) <$> strip_prefix (str "null") s
      else if c =? 116 then (fun rest => (PyBool true, rest)) <$> strip_prefix (str "true") s
      else if c =? 102 then (fun rest => (PyBool false, rest)) <$> strip_prefix (str "false") s
      else if c =? 78 then (fun rest => (PyFloat (str "NaN"), rest)) <$> strip_prefix (str "NaN") s
      else if c =? 73 then
        (fun rest => (PyFloat (str "Infinity"), rest)) <$> strip_prefix (str "Infinity") s
      else if c =? 45 then
        (fun rest => (PyFloat (str "-Infinity"), rest)) <$> strip_prefix (str "-Infinity") s
      else None
  end.

(** [scan_once] with the loops of [_parse_object] and [_parse_array].
    Every call consumes one unit of [fuel]; [loads] supplies more than the
    text can use up, so the interpreter's recursion limit is not modelled
    and [RecursionError] marks fuel that ran out. *)
Fixpoint scan_once (fuel : nat) (s : pystr) {struct fuel} : result (pyval * pystr) :=
  match fuel with
  | O => Raise RecursionError
  | S fuel =>
      match s with
      | [] => Raise JSONDecodeError
      | c :: s1 =>
          if c =? 34 then
            '(key, rest) ← scanstring s1; Ok (PyStr key, rest)
          else if c =? 123 then
            match skip_ws s1 with
            | c2 :: s2 =>
                if c2 =? 125 then Ok (PyDict [], s2)
                else parse_object fuel (c2 :: s2) []
            | [] => parse_object fuel [] []
            end
          else if c =? 91 then
            match skip_ws s1 with
            | c2 :: s2 =>
                if c2 =? 93 then Ok (PyList [], s2)
                else parse_array fuel (c2 :: s2) []
            | [] => parse_array fuel [] []
            end
          else
            match scan_constant s with
            | Some r => Ok r
            | None => match_number s
            end
      end
  end
with parse_object (fuel : nat) (s : pystr) (rval : dict pystr pyval) {struct fuel}
    : result (pyval * pystr) :=
  match fuel with
  | O => Raise RecursionError
  | S fuel =>
      match s with
      | [] => Raise JSONDecodeError
      | c :: s1 =>
          if c =? 34 then
            '(key, s2) ← scanstring s1;
            match skip_ws s2 with
            | [] => Raise JSONDecodeError
            | colon :: s3 =>
                if colon =? 58 then
                  '(val, s4) ← scan_once fuel (skip_ws s3);
                  let rval := dict_setitem key val rval in
                  match skip_ws s4 with
                  | [] => Raise JSONDecodeError
                  | d :: s5 =>
                      if d =? 125 then Ok (PyDict rval, s5)
                      else if d =? 44 then parse_object fuel (skip_ws s5) rval
                      else Raise JSONDecodeError
                  end
                else Raise JSONDecodeError
            end
          else Raise JSONDecodeError
      end
  end
with parse_array (fuel : nat) (s : pystr) (rval : list pyval) {struct fuel}
    : result (pyval * pystr) :=
  match fuel with
  | O => Raise RecursionError
  | S fuel =>
      '(val, s1) ← scan_once fuel s;
      let rval := rval ++ [val] in
      match skip_ws s1 with
      | [] => Raise JSONDecodeError
      | d :: s2 =>
          if d =? 93 then Ok (PyList rval, s2)
          else if d =? 44 then parse_array fuel (skip_ws s2) rval
          else Raise JSONDecodeError
      end
  end.

(** [s.startswith(prefix)] *)
Definition startswith (prefix s : pystr) : bool :=
  match strip_prefix prefix s with Some _ => true | None => false end.

(** [json.loads]: no byte-order mark, one value between optional
    whitespace, nothing after it. *)
Definition loads (s : pystr) : result pyval :=
  if startswith [65279] s then Raise JSONDecodeError
  else
    '(obj, rest) ← scan_once (2 * length s + 2) (skip_ws s);
    match skip_ws rest with
    | [] => Ok obj
    | _ :: _ => Raise JSONDecodeError
    end.

(** A [Dict[str, List[int]]] as the Python object it is. *)
Definition py_of_item (item : pystr * list Z) : pystr * pyval :=
  (item.1, PyList (PyInt <$> item.2)).

Definition py_of_index (d : dict pystr (list Z)) : pyval :=
  PyDict (py_of_item <$> d).

(** ** Persistence

    The file system maps a path to the text of the file.  [dump] opens the
    file for writing, which creates or replaces it, and writes the encoding
    of [self.words_ids]; [load] reads the whole file and hands the decoded
    object to the constructor, which stores it without looking at it. *)

Record LoadedIndex : Type := cls { loaded_words_ids : pyval }.

Definition dump (self : InvertedIndex) (filepath : pystr)
    (files : gmap pystr pystr) : gmap pystr pystr :=
  <[filepath := dumps (words_ids self)]> files.

Definition load (filepath : pystr) (files : gmap pystr pystr) : result LoadedIndex :=
  match files !! filepath with
  | None => Raise FileNotFoundError
  | Some text => words_ids ← loads text; mret (cls words_ids)
  end.

(** ** The store as objects on a heap

    [query] and [dump] once more, over mutable list and dict objects
    addressed by reference, to account for what they write. *)

Module Heap.

Definition loc : Type := positive.

Inductive object : Type :=
| List (items : list Z)
| Dict (entries : dict pystr loc).

Record world : Type := mkWorld {
  objects : gmap loc object;
  files : gmap pystr pystr
}.

Definition prog (A : Type) : Type := world -> result A * world.

#[global] Instance prog_ret : MRet prog := fun A a w => (Ok a, w).
#[global] Instance prog_bind : MBind prog := fun A B f m w =>
  match m w with
  | (Ok a, w') => f a w'
  | (Raise e, w') => (Raise e, w')
  end.

Definition lift {A} (r : result A) : prog A := fun w => (r, w).

Definition get_list (l : loc) : prog (list Z) := fun w =>
  match objects w !! l with
  | Some (List items) => (Ok items, w)
  | _ => (Raise TypeError, w)
  end.

Definition get_dict (l : loc) : prog (dict pystr loc) := fun w =>
  match objects w !! l with
  | Some (Dict entries) => (Ok entries, w)
  | _ => (Raise TypeError, w)
  end.

(** A new object, at an address not in use. *)
Definition alloc (o : object) : prog loc := fun w =>
  let l := fresh (dom (objects w)) in
  (Ok l, mkWorld (<[l := o]> (objects w)) (files w)).

(** [dst.extend(items)] *)
Definition extend (dst : loc) (items : list Z) : prog unit := fun w =>
  match objects w !! dst with
  | Some (List old) => (Ok (), mkWorld (<[dst := List (old ++ items)]> (objects w)) (files w))
  | _ => (Raise TypeError, w)
  end.

Definition write_file (filepath text : pystr) : prog unit := fun w =>
  (Ok (), mkWorld (objects w) (<[filepath := text]> (files w))).

Fixpoint query_loop (words_ids doc_indexes : loc) (words : list pystr) : prog unit :=
  match words with
  | [] => mret ()
  | word :: rest =>
      entries ← get_dict words_ids;
      (if dict_contains word entries
       then postings ← lift (dict_getitem word entries);
            items ← get_list postings;
            extend doc_indexes items
       else mret ());;
      query_loop words_ids doc_indexes rest
  end.

(** [self] is the reference held in [self.words_ids]; the result is the
    reference to the list [doc_indexes]. *)
Definition query (self : loc) (words : list pystr) : prog loc :=
  doc_indexes ← alloc (List []);
  query_loop self doc_indexes words;;
  mret doc_indexes.

Fixpoint read_entries (entries : dict pystr loc) : prog (dict pystr (list Z)) :=
  match entries with
  | [] => mret []
  | (k, l) :: entries =>
      items ← get_list l;
      d ← read_entries entries;
      mret ((k, items) :: d)
  end.

(** [open(filepath, 'w')] leaves an empty file; the encoder then walks the
    objects and the text is written.  Text written before an error is not
    kept by the model. *)
Definition dump (self : loc) (filepath : pystr) : prog unit :=
  write_file filepath [];;
  entries ← get_dict self;
  d ← read_entries entries;
  write_file filepath (dumps d).

(** The objects reachable from [words_ids] hold the index [d]. *)
Definition represents (w : world) (words_ids : loc) (d : dict pystr (list Z)) : Prop :=
  exists entries,
    objects w !! words_ids = Some (Dict entries) /\
    Forall2 (fun (e : pystr * loc) (i : pystr * list Z) =>
               e.1 = i.1 /\ objects w !! e.2 = Some (List i.2)) entries d.

End Heap.

(** ** Specifications the code is compared with *)

(** Tokenization as the specification words it: cut the lowercased text at
    every whitespace character, then discard the empty fragments. *)
Fixpoint fragments (s : pystr) (fragment : pystr) : list pystr :=
  match s with
  | [] => [fragment]
  | c :: s' =>
      if isspace c then fragment :: fragments s' [] else fragments s' (fragment ++ [c])
  end.

Definition spec_tokenize `{UnicodeData} (text : pystr) : list pystr :=
  filter (fun fragment => fragment <> []) (fragments (lower text) []).

(** The posting list the specification gives a term: the identifier of each
    document, in document order, once per occurrence of the term in it. *)
Definition occurrences `{UnicodeData} (word : pystr) (document : Z * pystr) : list Z :=
  (fun _ => document.1) <$> filter (fun w => w = word) (tokenize document.2).

Definition spec_postings `{UnicodeData} (documents : dict Z pystr) (word : pystr) : list Z :=
  documents ≫= occurrences word.

(** What [query] is specified to return: the stored posting list of every
    term of the query, in query order, absent terms contributing nothing. *)
Definition spec_query (d : dict pystr (list Z)) (words : list pystr) : list Z :=
  words ≫= fun word => default [] (dict_lookup word d).

(** A [str] holds code points; the round trip below distinguishes those
    with a high surrogate directly before a low surrogate. *)
Definition code_point (c : N) : Prop := c < 1114112.

Fixpoint has_surrogate_pair (s : pystr) : bool :=
  match s with
  | hi :: s' =>
      match s' with
      | lo :: _ => (is_high_surrogate hi && is_low_surrogate lo) || has_surrogate_pair s'
      | [] => false
      end
  | [] => false
  end.

(** The JSON grammar of RFC 8259, with the three literals [NaN],
    [Infinity] and [-Infinity] that Python's decoder adds to it. *)

Definition whitespace (s : pystr) : Prop := Forall (fun c => c ∈ [32; 9; 10; 13]) s.

Definition digit (c : N) : Prop := 48 <= c <= 57.

Definition hex_digit (c : N) : Prop :=
  48 <= c <= 57 \/ 97 <= c <= 102 \/ 65 <= c <= 70.

(** The characters of a string after its opening quote, closing quote
    included. *)
Inductive json_chars : pystr -> Prop :=
| chars_close : json_chars [34]
| chars_plain c s :
    32 <= c -> c <> 34 -> c <> 92 -> json_chars s -> json_chars (c :: s)
| chars_escape e s :
    e ∈ [34; 92; 47; 98; 102; 110; 114; 116] -> json_chars s -> json_chars (92 :: e :: s)
| chars_unicode h1 h2 h3 h4 s :
    hex_digit h1 -> hex_digit h2 -> hex_digit h3 -> hex_digit h4 ->
    json_chars s -> json_chars (92 :: 117 :: h1 :: h2 :: h3 :: h4 :: s).

Definition json_int (s : pystr) : Prop :=
  s = [48] \/ exists d ds, s = d :: ds /\ 49 <= d <= 57 /\ Forall digit ds.

Definition json_frac (s : pystr) : Prop :=
  s = [] \/ exists d ds, s = 46 :: d :: ds /\ Forall digit (d :: ds).

Definition json_exp (s : pystr) : Prop :=
  s = [] \/
  exists e sign d ds,
    s = e :: sign ++ d :: ds /\ e ∈ [101; 69] /\ sign ∈ [[]; [43]; [45]] /\
    Forall digit (d :: ds).

Definition json_number (s : pystr) : Prop :=
  exists sign i f e,
    s = sign ++ i ++ f ++ e /\ sign ∈ [[]; [45]] /\ json_int i /\ json_frac f /\ json_exp e.

Definition literals : list pystr :=
  [str "null"; str "true"; str "false"; str "NaN"; str "Infinity"; str "-Infinity"].

Inductive json_value : pystr -> Prop :=
| value_string s : json_chars s -> json_value (34 :: s)
| value_number s : json_number s -> json_value s
| value_literal s : s ∈ literals -> json_value s
| value_empty_array ws : whitespace ws -> json_value (91 :: ws ++ [93])
| value_array ws es : whitespace ws -> json_elements es -> json_value (91 :: ws ++ es)
| value_empty_object ws : whitespace ws -> json_value (123 :: ws ++ [125])
| value_object ws ms : whitespace ws -> json_members ms -> json_value (123 :: ws ++ ms)
with json_elements : pystr -> Prop :=
| elements_last v ws :
    json_value v -> whitespace ws -> json_elements (v ++ ws ++ [93])
| elements_more v ws1 ws2 es :
    json_value v -> whitespace ws1 -> whitespace ws2 -> json_elements es ->
    json_elements (v ++ ws1 ++ [44] ++ ws2 ++ es)
with json_members : pystr -> Prop :=
| members_last k ws1 ws2 v ws3 :
    json_chars k -> whitespace ws1 -> whitespace ws2 -> json_value v -> whitespace ws3 ->
    json_members (34 :: k ++ ws1 ++ [58] ++ ws2 ++ v ++ ws3 ++ [125])
| members_more k ws1 ws2 v ws3 ws4 ms :
    json_chars k -> whitespace ws1 -> whitespace ws2 -> json_value v -> whitespace ws3 ->
    whitespace ws4 -> json_members ms ->
    json_members (34 :: k ++ ws1 ++ [58] ++ ws2 ++ v ++ ws3 ++ [44] ++ ws4 ++ ms).


Scheme json_value_mut := Minimality for json_value Sort Prop
  with json_elements_mut := Minimality for json_elements Sort Prop
  with json_members_mut := Minimality for json_members Sort Prop.

Combined Scheme json_mutind from json_value_mut, json_elements_mut, json_members_mut.

(** A key the round trip returns unchanged: code points only, and no high
    surrogate directly before a low surrogate. *)
Definition json_safe (k : pystr) : Prop :=
  Forall code_point k /\ has_surrogate_pair k = false.

(** ** Auxiliary notions of the proofs *)

(** What [split] produces: non-empty words free of whitespace. *)
Definition token (w : pystr) : Prop := w <> [] /\ Forall (fun c => isspace c = false) w.

(** The posting list stored for a word, empty when the word is absent. *)
Definition postings (d : dict pystr (list Z)) (word : pystr) : list Z :=
  default [] (dict_lookup word d).

(** A non-empty posting list over the identifiers [ids]. *)
Definition postings_from (ids : list Z) (l : list Z) : Prop :=
  l <> [] /\ Forall (fun doc_id => doc_id ∈ ids) l.

(** Every object but the one at [l], and every file, is the same in [w']
    as in [w]. *)
Definition unchanged_but (l : Heap.loc) (w w' : Heap.world) : Prop :=
  Heap.files w' = Heap.files w /\
  forall l', l' <> l -> Heap.objects w' !! l' = Heap.objects w !! l'.

(** The text [t] does not start with the escape of a low surrogate. *)
Definition no_low_escape (t : pystr) : Prop :=
  forall g1 g2 g3 g4 t', t = 92 :: 117 :: g1 :: g2 :: g3 :: g4 :: t' ->
    exists uni2, decode_hex4 g1 g2 g3 g4 = Some uni2 /\ is_low_surrogate uni2 = false.

(** The four forms the escape of a character takes. *)
Inductive escape_shape (c : N) : Prop :=
| shape_plain : escape_char c = [c] -> c <> 34 -> c <> 92 -> 32 <= c -> escape_shape c
| shape_simple e :
    escape_char c = [92; e] -> e <> 117 -> unescape e = Some c -> escape_shape c
| shape_unicode : escape_char c = u_escape c -> c < 65536 -> escape_shape c
| shape_pair :
    escape_char c = u_escape (high_surrogate c) ++ u_escape (low_surrogate c) ->
    65536 <= c -> escape_shape c.

(** The characters that end an element of an encoded list. *)
Definition closes_item (c : N) : Prop := c = 44 \/ c = 93.

(** Fuel that decodes the items of an encoded index: some for each item
    and one unit for each of its elements. *)
Fixpoint weight (d : dict pystr (list Z)) : nat :=
  match d with
  | [] => O
  | item :: d => (length item.2 + 4 + weight d)%nat
  end.




(** The characters [dump] writes. *)
Definition printable (c : N) : Prop := 32 <= c <= 126.


(** ** The command-line layer: [load_documents], the two pipelines and
    queries on a loaded object

    The exceptions of this layer: the ones the index code raises, and the
    two that reading the documents and printing a query add. *)

Inductive error : Type :=
| ValueError
| IndexError
| Core (e : exn).

Inductive outcome (A : Type) : Type :=
| Done (a : A)
| Failed (e : error).
Arguments Done {A} a.
Arguments Failed {A} e.

#[global] Instance outcome_ret : MRet outcome := fun A a => Done a.
#[global] Instance outcome_bind : MBind outcome := fun A B f m =>
  match m with
  | Done a => f a
  | Failed e => Failed e
  end.

(** The builtins [int] and [repr] belong to the interpreter.  [py_int] is
    [int] on a [str], [None] standing for [ValueError]; [py_repr] is [repr]. *)
Class Builtins : Type := {
  py_int : pystr -> option Z;
  py_repr : pyval -> pystr
}.

(** [int] on plain decimal literals, which is the least [int] accepts. *)
Definition decimal_int (s : pystr) : option Z :=
  let '(negative, digits) := scan_sign s in
  match digits with
  | [] => None
  | _ => if forallb is_digit digits then Some (int_of_literal negative digits) else None
  end.

(** An implementation of the interface, exact on plain decimal literals and
    on the [repr] of an [int]. *)
#[global] Instance plain_builtins : Builtins := {|
  py_int := decimal_int;
  py_repr := fun v => match v with PyInt z => int_repr z | _ => [] end
|}.

(** [str.strip()]: the slice between the first and the last character that
    are not whitespace. *)
Fixpoint lstrip (s : pystr) : pystr :=
  match s with
  | c :: s' => if isspace c then lstrip s' else s
  | [] => []
  end.

Fixpoint rstrip (s : pystr) : pystr :=
  match s with
  | [] => []
  | c :: s' =>
      match rstrip s' with
      | [] => if isspace c then [] else [c]
      | r => c :: r
      end
  end.

Definition strip (s : pystr) : pystr := rstrip (lstrip s).

(** [s.split(sep)] for a separator of one character: the fields between
    the separators, empty ones included. *)
Fixpoint split_on (sep : N) (s : pystr) (field : pystr) : list pystr :=
  match s with
  | [] => [field]
  | c :: s' => if c =? sep then field :: split_on sep s' [] else split_on sep s' (field ++ [c])
  end.

(** Reading a file in text mode translates the line endings: a carriage
    return becomes a line feed, and a line feed directly after a carriage
    return is dropped.  [after_cr] tells that the last character read was a
    carriage return. *)
Fixpoint translate_newlines (after_cr : bool) (s : pystr) : pystr :=
  match s with
  | [] => []
  | c :: s' =>
      if c =? 13 then 10 :: translate_newlines true s'
      else if (c =? 10) && after_cr then translate_newlines false s'
      else c :: translate_newlines false s'
  end.

(** The lines of a text, each with its line feed; the last one has none
    when the text does not end with one. *)
Fixpoint lines_of (text : pystr) (line : pystr) : list pystr :=
  match text with
  | [] => match line with [] => [] | _ => [line] end
  | c :: text' =>
      if c =? 10 then (line ++ [c]) :: lines_of text' [] else lines_of text' (line ++ [c])
  end.

(** [for line in f], on a file opened for reading that holds [text]. *)
Definition readlines (text : pystr) : list pystr :=
  lines_of (translate_newlines false text) [].

Section Documents.
Context `{Builtins}.

(** [doc_id, text = line.strip().split('\t')] and [int(doc_id)]: unpacking
    anything but two fields raises [ValueError], as does [int]. *)
Definition parse_line (line : pystr) : outcome (Z * pystr) :=
  match split_on 9 (strip line) [] with
  | [doc_id; text] =>
      match py_int doc_id with
      | Some z => Done (z, text)
      | None => Failed ValueError
      end
  | _ => Failed ValueError
  end.

Fixpoint load_lines (lines : list pystr) (documents : dict Z pystr)
    : outcome (dict Z pystr) :=
  match lines with
  | [] => Done documents
  | line :: rest =>
      '(doc_id, text) ← parse_line line;
      load_lines rest (dict_setitem doc_id text documents)
  end.

Definition load_documents (filepath : pystr) (files : gmap pystr pystr)
    : outcome (dict Z pystr) :=
  match files !! filepath with
  | None => Failed (Core FileNotFoundError)
  | Some text => load_lines (readlines text) []
  end.

(** [process_build], and [callback_build] on [args.dataset] and
    [args.output]: the two have the same body. *)
Definition process_build `{UnicodeData} (dataset output : pystr)
    (files : gmap pystr pystr) : outcome unit * gmap pystr pystr :=
  match load_documents dataset files with
  | Failed e => (Failed e, files)
  | Done documents =>
      match build_inverted_index documents with
      | Raise e => (Failed (Core e), files)
      | Ok inverted_index => (Done (), dump inverted_index output files)
      end
  end.
End Documents.

(** ** [query] on a loaded object

    [load] stores whatever the file denotes, and the command line hands
    [query] either the lines of a file or the groups of terms that [-q]
    collects, so the operations of [query] are Python's dynamic ones. *)

Inductive qword : Type :=
| Word (s : pystr)
| Group (terms : list pystr).

(** [v == word]: a [str] equals only the same [str], a list only a list
    with equal elements. *)
Fixpoint strs_eq (l : list pyval) (terms : list pystr) : bool :=
  match l, terms with
  | [], [] => true
  | PyStr s :: l', term :: terms' => bool_decide (s = term) && strs_eq l' terms'
  | _, _ => false
  end.

Definition py_eq (v : pyval) (word : qword) : bool :=
  match v, word with
  | PyStr s, Word w => bool_decide (s = w)
  | PyList l, Group terms => strs_eq l terms
  | _, _ => false
  end.

(** [w in s] on two [str]: [w] is a slice of [s]. *)
Fixpoint is_substring (w s : pystr) : bool :=
  startswith w s ||
  match s with
  | [] => false
  | _ :: s' => is_substring w s'
  end.

(** [word in container].  A dict hashes the word, and a list cannot be
    hashed; a list compares its elements; a [str] accepts only a [str]; the
    other values are no containers. *)
Definition py_contains (container : pyval) (word : qword) : result bool :=
  match container with
  | PyDict d =>
      match word with
      | Word w => Ok (dict_contains w d)
      | Group _ => Raise TypeError
      end
  | PyList l => Ok (existsb (fun v => py_eq v word) l)
  | PyStr s =>
      match word with
      | Word w => Ok (is_substring w s)
      | Group _ => Raise TypeError
      end
  | _ => Raise TypeError
  end.

(** [container[word]].  Only a dict can be subscripted with a [str]. *)
Definition py_getitem (container : pyval) (word : qword) : result pyval :=
  match container with
  | PyDict d =>
      match word with
      | Word w =>
          match dict_lookup w d with
          | Some v => Ok v
          | None => Raise KeyError
          end
      | Group _ => Raise TypeError
      end
  | _ => Raise TypeError
  end.

(** What [list.extend(v)] appends: the elements of a list, the keys of a
    dict, the characters of a [str]. *)
Definition py_iter (v : pyval) : result (list pyval) :=
  match v with
  | PyList l => Ok l
  | PyDict d => Ok (PyStr <$> keys d)
  | PyStr s => Ok ((fun c => PyStr [c]) <$> s)
  | _ => Raise TypeError
  end.

Fixpoint query_object_loop (words_ids : pyval) (words : list qword)
    (doc_indexes : list pyval) : result (list pyval) :=
  match words with
  | [] => mret doc_indexes
  | word :: rest =>
      found ← py_contains words_ids word;
      if found : bool
      then postings ← py_getitem words_ids word;
           items ← py_iter postings;
           query_object_loop words_ids rest (doc_indexes ++ items)
      else query_object_loop words_ids rest doc_indexes
  end.

(** [InvertedIndex.query] on the object [load] returns. *)
Definition query_object (self : LoadedIndex) (words : list qword) : result (list pyval) :=
  query_object_loop (loaded_words_ids self) words [].

(** [callback_query]: [args.query] goes to [query] as it is.  The result is
    the list handed to [print]; how [print] writes it is not modelled. *)
Definition callback_query (query : list qword) (index : pystr)
    (files : gmap pystr pystr) : result (list pyval) :=
  inverted_index ← load index files;
  query_object inverted_index query.

(** What the command line makes of [args.query]: [-q] appends one list of
    terms per use; [--query_from_file] gives the open file, whose iteration
    yields its lines. *)
Definition query_groups (groups : list (list pystr)) : list qword := Group <$> groups.

Section Printing.
Context `{Builtins}.

(** [str(value)] *)
Definition py_str (v : pyval) : pystr :=
  match v with
  | PyInt z => int_repr z
  | PyStr s => s
  | PyNone => str "None"
  | PyBool true => str "True"
  | PyBool false => str "False"
  | _ => py_repr v
  end.

(** [query[0]] *)
Definition first_item (query : qword) : outcome pystr :=
  match query with
  | Word [] => Failed IndexError
  | Word (c :: _) => Done [c]
  | Group [] => Failed IndexError
  | Group (term :: _) => Done term
  end.

(** The terms of one query: [query.strip().split()] of a [str], the list
    itself otherwise. *)
Definition query_terms (query : qword) : list qword :=
  match query with
  | Word s => Word <$> split (strip s)
  | Group terms => Word <$> terms
  end.

(** The loop of [process_query].  [stdout] holds the strings printed so
    far, one per call of [print]. *)
Fixpoint process_queries (inverted_index : LoadedIndex) (queries : list qword)
    (stdout : list pystr) : outcome unit * list pystr :=
  match queries with
  | [] => (Done (), stdout)
  | query :: rest =>
      match first_item query with
      | Failed e => (Failed e, stdout)
      | Done first =>
          let stdout := stdout ++ [first] in
          match query_object inverted_index (query_terms query) with
          | Raise e => (Failed (Core e), stdout)
          | Ok values =>
              let doc_indexes := join [44] (py_str <$> values) in
              process_queries inverted_index rest (stdout ++ [doc_indexes])
          end
      end
  end.

Definition process_query (queries : list qword) (index : pystr)
    (files : gmap pystr pystr) : outcome unit * list pystr :=
  match load index files with
  | Raise e => (Failed (Core e), [])
  | Ok inverted_index => process_queries inverted_index queries []
  end.
End Printing.

(** ** Further notions the properties are stated with *)

(** The distinct elements of a list, in the order of their first occurrence. *)
Fixpoint first_occurrences (l : list pystr) : list pystr :=
  match l with
  | [] => []
  | x :: l' => x :: filter (fun y => y <> x) (first_occurrences l')
  end.

(** A text [load_documents] can return: not empty, without a tab, a line
    feed or a carriage return, and not ending in whitespace. *)
Definition clean_text (text : pystr) : Prop :=
  text <> [] /\ (9 ∉ text) /\ (10 ∉ text) /\ (13 ∉ text) /\
  forall c, last text = Some c -> isspace c = false.

(** The line of a record in the file of documents, and the file of a list
    of records. *)
Definition dataset_line (record : Z * pystr) : pystr :=
  int_repr record.1 ++ [9] ++ record.2 ++ [10].

Definition dataset_text (records : list (Z * pystr)) : pystr :=
  records ≫= dataset_line.

(** The mapping that assigning the records in order builds. *)
Definition documents_of (records : list (Z * pystr)) : dict Z pystr :=
  foldl (fun documents record => dict_setitem record.1 record.2 documents) [] records.

(** A line [load_documents] reads a record from: between the whitespace
    around it stand two fields separated by the only tab, and [int] accepts
    the first. *)
Definition record_line `{Builtins} (line : pystr) : Prop :=
  exists doc_id text,
    strip line = doc_id ++ [9] ++ text /\ (9 ∉ doc_id) /\ (9 ∉ text) /\
    is_Some (py_int doc_id).

(** The number of tabs of a string. *)
Definition tabs (s : pystr) : nat := count_occ N.eq_dec s 9.

(** What [process_query] prints first for a query, and the terms it looks up. *)
Definition first_of (query : qword) : pystr :=
  match query with
  | Word s => take 1 s
  | Group terms => default [] (head terms)
  end.

Definition terms_of (query : qword) : list pystr :=
  match query with
  | Word s => split s
  | Group terms => terms
  end.

(** A query [process_query] can print the head of. *)
Definition nonempty_query (query : qword) : Prop :=
  match query with
  | Word s => s <> []
  | Group terms => terms <> []
  end.

(** One step of the order in which the keys of a dict come to be. *)
Definition add_key (ks : list pystr) (k : pystr) : list pystr :=
  if decide (k ∈ ks) then ks else ks ++ [k].

(** The values that hold nothing: no container and no [str]. *)
Definition scalar (v : pyval) : Prop :=
  match v with
  | PyNone | PyBool _ | PyInt _ | PyFloat _ => True
  | _ => False
  end.


(** * Dictionaries *)

Section DictFacts.
Context {K V : Type} `{EqDecision K}.
Implicit Types (k : K) (v : V) (d : dict K V).

Lemma dict_lookup_setitem_eq k v d : dict_lookup k (dict_setitem k v d) = Some v.
Proof.
  induction d as [|[k' v'] d IH]; simpl.
  - by rewrite decide_True.
  - destruct (decide (k = k')) as [->|Hne]; simpl.
    + by rewrite decide_True.
    + by rewrite decide_False.
Qed.

Lemma dict_lookup_setitem_ne k k' v d :
  k <> k' -> dict_lookup k' (dict_setitem k v d) = dict_lookup k' d.
Proof.
  intros Hne. induction d as [|[k0 v0] d IH]; simpl.
  - by rewrite decide_False.
  - destruct (decide (k = k0)) as [->|Hk]; simpl.
    + by rewrite !decide_False.
    + by rewrite IH.
Qed.

Lemma dict_lookup_None k d : dict_lookup k d = None <-> k ∉ keys d.
Proof.
  induction d as [|[k' v'] d IH]; simpl.
  - split; [intros _; apply not_elem_of_nil | done].
  - rewrite not_elem_of_cons. destruct (decide (k = k')) as [->|Hne]; simpl.
    + split; [done | by intros [? _]].
    + rewrite IH. tauto.
Qed.

Lemma dict_setitem_new k v d : dict_lookup k d = None -> dict_setitem k v d = d ++ [(k, v)].
Proof.
  induction d as [|[k' v'] d IH]; simpl; [done|].
  destruct (decide (k = k')); [done|]. intros Hd. by rewrite IH.
Qed.

Lemma dict_setitem_twice k v v' d :
  dict_setitem k v' (dict_setitem k v d) = dict_setitem k v' d.
Proof.
  induction d as [|[k0 v0] d IH]; simpl.
  - by rewrite decide_True.
  - destruct (decide (k = k0)) as [->|Hne]; simpl.
    + by rewrite decide_True.
    + by rewrite decide_False, IH.
Qed.

Lemma dict_setitem_Forall (P : K * V -> Prop) k v d :
  (forall k', P (k', v)) -> Forall P d -> Forall P (dict_setitem k v d).
Proof.
  intros Hv. induction 1 as [|[k0 v0] d Hx Hd IH]; simpl.
  - by repeat constructor.
  - destruct (decide (k = k0)); constructor; auto.
Qed.

Lemma dict_lookup_elem_of k v d : dict_lookup k d = Some v -> (k, v) ∈ d.
Proof.
  induction d as [|[k' v'] d IH]; simpl; [done|].
  destruct (decide (k = k')) as [->|Hne].
  - intros [= ->]. apply list_elem_of_here.
  - intros Hd. apply list_elem_of_further; auto.
Qed.

Lemma dict_contains_lookup k d :
  dict_contains k d = true <-> is_Some (dict_lookup k d).
Proof.
  unfold dict_contains. destruct (dict_lookup k d); split; by try (intros [? ?]).
Qed.
End DictFacts.

(** * The tokenizer *)

Lemma split_run_fragments s word :
  split_run s word = filter (fun fragment => fragment <> []) (fragments s word).
Proof.
  revert word. induction s as [|c s IH]; intros word; simpl.
  - destruct word.
    + by rewrite filter_cons_False by (intros Hne; by apply Hne).
    + by rewrite filter_cons_True.
  - destruct (isspace c).
    + destruct word.
      * rewrite filter_cons_False by (intros Hne; by apply Hne). apply IH.
      * rewrite filter_cons_True by done. by rewrite IH.
    + apply IH.
Qed.

Lemma split_run_tokens s word :
  Forall (fun c => isspace c = false) word -> Forall token (split_run s word).
Proof.
  revert word. induction s as [|c s IH]; intros word Hword; simpl.
  - destruct word; [constructor|]. apply Forall_cons. split; [by split | constructor].
  - destruct (isspace c) eqn:Hc.
    + destruct word.
      * apply IH. constructor.
      * apply Forall_cons. split; [by split | apply IH; constructor].
    + apply IH. apply Forall_app. split; [done | by repeat constructor].
Qed.

Lemma lower_literal `{UnicodeData} (s : pystr) :
  forallb (fun c => c <? 128) s = true -> lower s = ascii_tolower <$> s.
Proof.
  intros Hs. apply lower_ascii.
  rewrite forallb_forall in Hs. apply Forall_forall. intros c Hc.
  apply N.ltb_lt, Hs. by apply list_elem_of_In.
Qed.

(** * The builder *)

Section BuildFacts.
Context `{UnicodeData}.

Lemma index_words_step doc_id word rest d :
  index_words doc_id (word :: rest) d =
  index_words doc_id rest (dict_setitem word (postings d word ++ [doc_id]) d).
Proof.
  simpl. unfold postings, dict_contains, dict_getitem.
  destruct (dict_lookup word d) as [l|] eqn:Hl; simpl.
  - by rewrite Hl.
  - rewrite dict_lookup_setitem_eq. simpl. by rewrite dict_setitem_twice.
Qed.

Lemma postings_setitem_eq d word l : postings (dict_setitem word l d) word = l.
Proof. unfold postings. by rewrite dict_lookup_setitem_eq. Qed.

Lemma postings_setitem_ne d word word' l :
  word <> word' -> postings (dict_setitem word l d) word' = postings d word'.
Proof. intros. unfold postings. by rewrite dict_lookup_setitem_ne. Qed.

Lemma index_words_total doc_id cleaned_text d :
  exists d', index_words doc_id cleaned_text d = Ok d'.
Proof.
  revert d. induction cleaned_text as [|word rest IH]; intros d.
  - by eexists.
  - rewrite index_words_step. apply IH.
Qed.

Lemma index_words_postings doc_id cleaned_text d d' word :
  index_words doc_id cleaned_text d = Ok d' ->
  postings d' word =
  postings d word ++ ((fun _ => doc_id) <$> filter (fun w => w = word) cleaned_text).
Proof.
  revert d. induction cleaned_text as [|w rest IH]; intros d.
  - intros [= <-]. by rewrite filter_nil, app_nil_r.
  - rewrite index_words_step. intros Hd'. rewrite (IH _ Hd').
    destruct (decide (w = word)) as [->|Hne].
    + rewrite postings_setitem_eq, filter_cons_True by done.
      by rewrite <- app_assoc.
    + by rewrite postings_setitem_ne, filter_cons_False by done.
Qed.

Lemma index_words_Forall (P : list Z -> Prop) doc_id cleaned_text d d' :
  (forall l, l = [] \/ P l -> P (l ++ [doc_id])) ->
  index_words doc_id cleaned_text d = Ok d' ->
  Forall (fun item => P item.2) d -> Forall (fun item => P item.2) d'.
Proof.
  intros HP. revert d. induction cleaned_text as [|w rest IH]; intros d.
  - by intros [= <-].
  - rewrite index_words_step. intros Hd' Hd. apply (IH _ Hd').
    apply dict_setitem_Forall; [|done]. intros k'. apply HP.
    unfold postings. destruct (dict_lookup w d) as [l|] eqn:Hl; simpl; [right | by left].
    apply dict_lookup_elem_of in Hl. rewrite Forall_forall in Hd. apply (Hd _ Hl).
Qed.

Lemma index_documents_total documents d :
  exists d', index_documents documents d = Ok d'.
Proof.
  revert d. induction documents as [|[doc_id text] rest IH]; intros d; simpl.
  - by eexists.
  - destruct (index_words_total doc_id (tokenize text) d) as [d1 ->]. apply IH.
Qed.

Lemma index_documents_postings documents d d' word :
  index_documents documents d = Ok d' ->
  postings d' word = postings d word ++ spec_postings documents word.
Proof.
  revert d. induction documents as [|[doc_id text] rest IH]; intros d; simpl.
  - intros [= <-]. by rewrite app_nil_r.
  - destruct (index_words doc_id (tokenize text) d) as [d1|] eqn:Hd1; [|done].
    simpl. intros Hd'. rewrite (IH _ Hd'), (index_words_postings _ _ _ _ _ Hd1).
    by rewrite <- app_assoc.
Qed.

Lemma index_documents_invariant (seen documents : dict Z pystr) d d' :
  index_documents documents d = Ok d' ->
  Forall (fun item => postings_from (keys (seen ++ documents)) item.2) d ->
  Forall (fun item => postings_from (keys (seen ++ documents)) item.2) d'.
Proof.
  revert seen d. induction documents as [|[doc_id text] rest IH]; intros seen d; simpl.
  - by intros [= <-].
  - destruct (index_words doc_id (tokenize text) d) as [d1|] eqn:Hd1; [|done].
    simpl. intros Hd' Hd.
    replace (seen ++ (doc_id, text) :: rest) with ((seen ++ [(doc_id, text)]) ++ rest)
      in * by (by rewrite <- app_assoc).
    apply (IH _ _ Hd').
    eapply index_words_Forall; [|exact Hd1|exact Hd].
    intros l Hl. split; [by destruct l|].
    apply Forall_app. split.
    + destruct Hl as [->|[_ Hids]]; [constructor|done].
    + repeat constructor. unfold keys. rewrite !fmap_app.
      apply elem_of_app. left. apply elem_of_app. right. apply list_elem_of_here.
Qed.

End BuildFacts.

(** * Query *)

Lemma query_loop_spec d words doc_indexes :
  query_loop d words doc_indexes = Ok (doc_indexes ++ spec_query d words).
Proof.
  revert doc_indexes. induction words as [|word rest IH]; intros doc_indexes; simpl.
  - by rewrite app_nil_r.
  - unfold dict_contains, dict_getitem, spec_query.
    destruct (dict_lookup word d) as [l|] eqn:Hl; simpl.
    + rewrite IH. by rewrite <- app_assoc.
    + by rewrite IH.
Qed.


(** * The heap model *)

Lemma unchanged_but_refl l w : unchanged_but l w w.
Proof. by split. Qed.

Lemma unchanged_but_trans l w1 w2 w3 :
  unchanged_but l w1 w2 -> unchanged_but l w2 w3 -> unchanged_but l w1 w3.
Proof.
  intros [Hf1 Ho1] [Hf2 Ho2]. split; [congruence|].
  intros l' Hl'. by rewrite Ho2, Ho1.
Qed.

Lemma heap_extend_unchanged dst items w : unchanged_but dst w (Heap.extend dst items w).2.
Proof.
  unfold Heap.extend. destruct (Heap.objects w !! dst) as [[old|]|]; simpl;
    try apply unchanged_but_refl.
  split; [done|]. intros l' Hl'. simpl. by rewrite lookup_insert_ne.
Qed.

Lemma heap_query_loop_unchanged words_ids doc_indexes words w :
  unchanged_but doc_indexes w (Heap.query_loop words_ids doc_indexes words w).2.
Proof.
  revert w. induction words as [|word rest IH]; intros w; simpl.
  - apply unchanged_but_refl.
  - unfold mbind, Heap.prog_bind, Heap.get_dict.
    destruct (Heap.objects w !! words_ids) as [[|entries]|]; simpl;
      try apply unchanged_but_refl.
    destruct (dict_contains word entries); simpl; [|apply IH].
    unfold Heap.lift. destruct (dict_getitem word entries) as [l|]; simpl;
      [|apply unchanged_but_refl].
    unfold Heap.get_list.
    destruct (Heap.objects w !! l) as [[items|]|]; simpl;
      try apply unchanged_but_refl.
    pose proof (heap_extend_unchanged doc_indexes items w) as Hext.
    destruct (Heap.extend doc_indexes items w) as [[[]|e] w1]; simpl in *; [|done].
    eapply unchanged_but_trans; [exact Hext|apply IH].
Qed.

(** [query] leaves every object that existed before the call as it was:
    the only object it writes is the list it allocates. *)
Lemma heap_query_frame self words w l :
  is_Some (Heap.objects w !! l) ->
  Heap.objects (Heap.query self words w).2 !! l = Heap.objects w !! l.
Proof.
  intros Hl. unfold Heap.query, mbind, Heap.prog_bind, Heap.alloc. simpl.
  set (doc_indexes := fresh (dom (Heap.objects w))).
  assert (l <> doc_indexes) as Hne.
  { intros ->. apply (is_fresh (dom (Heap.objects w))). by apply elem_of_dom. }
  set (w0 := Heap.mkWorld _ _).
  pose proof (heap_query_loop_unchanged self doc_indexes words w0) as [_ Hloop].
  destruct (Heap.query_loop self doc_indexes words w0) as [[[]|e] w1]; simpl in *;
    rewrite (Hloop _ Hne); subst w0; simpl; by rewrite lookup_insert_ne.
Qed.

Lemma heap_query_files self words w :
  Heap.files (Heap.query self words w).2 = Heap.files w.
Proof.
  unfold Heap.query, mbind, Heap.prog_bind, Heap.alloc. simpl.
  set (doc_indexes := fresh (dom (Heap.objects w))). set (w0 := Heap.mkWorld _ _).
  pose proof (heap_query_loop_unchanged self doc_indexes words w0) as [Hfiles _].
  by destruct (Heap.query_loop self doc_indexes words w0) as [[[]|e] w1].
Qed.

Lemma heap_read_entries_objects entries w :
  Heap.objects (Heap.read_entries entries w).2 = Heap.objects w.
Proof.
  revert w. induction entries as [|[k l] entries IH]; intros w; simpl; [done|].
  unfold mbind, Heap.prog_bind, Heap.get_list.
  destruct (Heap.objects w !! l) as [[items|]|]; simpl; try done.
  specialize (IH w). by destruct (Heap.read_entries entries w) as [[d|e] w1].
Qed.

Lemma heap_dump_objects self filepath w :
  Heap.objects (Heap.dump self filepath w).2 = Heap.objects w.
Proof.
  unfold Heap.dump, mbind, Heap.prog_bind, Heap.write_file, Heap.get_dict. simpl.
  destruct (Heap.objects w !! self) as [[|entries]|]; simpl; try done.
  set (w0 := Heap.mkWorld _ _).
  pose proof (heap_read_entries_objects entries w0) as Hread.
  by destruct (Heap.read_entries entries w0) as [[d|e] w1].
Qed.

Lemma represents_ext w w' self d :
  (forall l, is_Some (Heap.objects w !! l) -> Heap.objects w' !! l = Heap.objects w !! l) ->
  Heap.represents w self d -> Heap.represents w' self d.
Proof.
  intros Hsame (entries & Hself & Hentries). exists entries. split.
  - by rewrite Hsame.
  - eapply Forall2_impl; [exact Hentries|]. intros e i [Hk Hl]. split; [done|].
    by rewrite Hsame.
Qed.

(** The heap model computes what the functional model computes. *)

Lemma represents_lookup w entries d word :
  Forall2 (fun (e : pystr * Heap.loc) (i : pystr * list Z) =>
             e.1 = i.1 /\ Heap.objects w !! e.2 = Some (Heap.List i.2)) entries d ->
  match dict_lookup word entries with
  | Some l =>
      exists items, dict_lookup word d = Some items /\
                    Heap.objects w !! l = Some (Heap.List items)
  | None => dict_lookup word d = None
  end.
Proof.
  induction 1 as [|[k l] [k' items] entries d [Hk Hl] Hrest IH]; simpl in *; [done|].
  subst k'. destruct (decide (word = k)); [by exists items | done].
Qed.

Lemma heap_read_entries_represents w entries d :
  Forall2 (fun (e : pystr * Heap.loc) (i : pystr * list Z) =>
             e.1 = i.1 /\ Heap.objects w !! e.2 = Some (Heap.List i.2)) entries d ->
  Heap.read_entries entries w = (Ok d, w).
Proof.
  induction 1 as [|[k l] [k' items] entries d [Hk Hl] Hrest IH]; simpl in *; [done|].
  subst k'. unfold mbind, Heap.prog_bind, Heap.get_list. by rewrite Hl, IH.
Qed.

Lemma heap_dump_refines w self d filepath :
  Heap.represents w self d ->
  Heap.dump self filepath w =
  (Ok (), Heap.mkWorld (Heap.objects w) (dump (mkInvertedIndex d) filepath (Heap.files w))).
Proof.
  intros (entries & Hself & Hentries).
  unfold Heap.dump, mbind, Heap.prog_bind, Heap.write_file, Heap.get_dict. simpl.
  rewrite Hself. rewrite (heap_read_entries_represents _ _ d) by done. simpl.
  unfold dump. simpl. by rewrite insert_insert_eq.
Qed.

Lemma heap_query_loop_refines self doc_indexes entries d words w acc :
  Heap.objects w !! self = Some (Heap.Dict entries) ->
  Forall2 (fun (e : pystr * Heap.loc) (i : pystr * list Z) =>
             e.1 = i.1 /\ Heap.objects w !! e.2 = Some (Heap.List i.2)) entries d ->
  Heap.objects w !! doc_indexes = Some (Heap.List acc) ->
  self <> doc_indexes ->
  Forall (fun e : pystr * Heap.loc => e.2 <> doc_indexes) entries ->
  exists w',
    Heap.query_loop self doc_indexes words w = (Ok (), w') /\
    Heap.objects w' !! doc_indexes = Some (Heap.List (acc ++ spec_query d words)).
Proof.
  intros Hself Hentries Hacc Hne Hfresh.
  revert w acc Hself Hentries Hacc. induction words as [|word rest IH];
    intros w acc Hself Hentries Hacc; simpl.
  - exists w. by rewrite app_nil_r.
  - unfold mbind, Heap.prog_bind, Heap.get_dict. rewrite Hself.
    pose proof (represents_lookup w entries d word Hentries) as Hword.
    unfold dict_contains, spec_query, Heap.lift, dict_getitem. simpl.
    destruct (dict_lookup word entries) as [l|] eqn:Hl.
    + destruct Hword as (items & Hitems & Hobj). rewrite Hitems. simpl.
      unfold Heap.get_list. rewrite Hobj. unfold Heap.extend. rewrite Hacc. simpl.
      rewrite app_assoc. apply IH; simpl.
      * by rewrite lookup_insert_ne.
      * clear -Hentries Hfresh. induction Hentries as [|e i entries d [Hk Hobj] _ IH];
          [constructor|]. inversion Hfresh; subst. constructor; [|by apply IH].
        split; [done|]. by rewrite lookup_insert_ne.
      * by rewrite lookup_insert_eq.
    + rewrite Hword. simpl. by apply IH.
Qed.

Lemma heap_query_refines w self d words :
  Heap.represents w self d ->
  exists l w',
    Heap.query self words w = (Ok l, w') /\
    query (mkInvertedIndex d) words = Ok (spec_query d words) /\
    Heap.objects w' !! l = Some (Heap.List (spec_query d words)).
Proof.
  intros (entries & Hself & Hentries).
  unfold Heap.query, mbind, Heap.prog_bind, Heap.alloc. simpl.
  set (doc_indexes := fresh (dom (Heap.objects w))).
  assert (forall l o, Heap.objects w !! l = Some o -> l <> doc_indexes) as Hfresh.
  { intros l o Hl ->. apply (is_fresh (dom (Heap.objects w))). apply elem_of_dom.
    by eexists. }
  assert (Forall (fun e : pystr * Heap.loc => e.2 <> doc_indexes) entries) as Hlocs.
  { clear -Hentries Hfresh. induction Hentries as [|e i entries d [_ Hobj] _ IH];
      constructor; eauto. }
  destruct (heap_query_loop_refines self doc_indexes entries d words
              (Heap.mkWorld (<[doc_indexes := Heap.List []]> (Heap.objects w))
                            (Heap.files w)) [])
    as (w' & Hloop & Hres); simpl.
  - rewrite lookup_insert_ne; [done|]. intros Heq. by eapply Hfresh.
  - clear -Hentries Hlocs. induction Hentries as [|e i entries d [Hk Hobj] _ IH];
      [constructor|]. inversion Hlocs; subst. constructor; [|by apply IH].
    split; [done|]. by rewrite lookup_insert_ne.
  - by rewrite lookup_insert_eq.
  - by eapply Hfresh.
  - done.
  - exists doc_indexes, w'. rewrite Hloop. simpl. split; [done|]. split; [|done].
    unfold query. simpl. by rewrite query_loop_spec.
Qed.


(** * Bit arithmetic of the escapes *)

Lemma land_shiftl_low a b k : b < 2 ^ k -> N.land (N.shiftl a k) b = 0.
Proof.
  intros Hb. apply N.bits_inj. intros n. rewrite N.land_spec, N.bits_0.
  destruct (N.lt_ge_cases n k) as [Hn|Hn].
  - by rewrite N.shiftl_spec_low.
  - destruct (N.eq_dec b 0) as [->|Hb0]; [by rewrite N.bits_0, andb_false_r|].
    rewrite (N.bits_above_log2 b n), andb_false_r; [done|].
    apply N.log2_lt_pow2; [lia|].
    eapply N.lt_le_trans; [exact Hb|]. by apply N.pow_le_mono_r.
Qed.

Lemma lor_shiftl a b k : b < 2 ^ k -> N.lor (N.shiftl a k) b = a * 2 ^ k + b.
Proof.
  intros Hb. rewrite <- N.lxor_lor, <- N.add_nocarry_lxor by by apply land_shiftl_low.
  by rewrite N.shiftl_mul_pow2.
Qed.

Lemma hex_value_hex_char d : d < 16 -> hex_value (hex_char d) = Some d.
Proof.
  intros Hd. destruct d as [|p]; [done|].
  repeat (first [lia | reflexivity
                | match goal with q : positive |- _ => destruct q end]).
Qed.

Lemma decode_hex4_digits n :
  n < 65536 ->
  decode_hex4 (hex_char (n / 4096)) (hex_char ((n / 256) mod 16))
              (hex_char ((n / 16) mod 16)) (hex_char (n mod 16)) = Some n.
Proof.
  intros Hn. unfold decode_hex4.
  assert (n / 4096 < 16) by (apply N.Div0.div_lt_upper_bound; lia).
  rewrite !hex_value_hex_char by (done || by apply N.mod_lt).
  simpl. f_equal.
  rewrite !(lor_shiftl _ _ 4) by (by apply N.mod_lt).
  change (2 ^ 4) with 16. zify. Z.to_euclidean_division_equations. lia.
Qed.

Lemma scan_u_escape n : n < 65536 ->
  exists h1 h2 h3 h4, u_escape n = [92; 117; h1; h2; h3; h4] /\ decode_hex4 h1 h2 h3 h4 = Some n.
Proof. intros Hn. do 4 eexists. split; [reflexivity|]. by apply decode_hex4_digits. Qed.

Lemma high_surrogate_eq c : 65536 <= c < 1114112 -> high_surrogate c = 55296 + (c - 65536) / 1024.
Proof.
  intros Hc. unfold high_surrogate. change 1023 with (N.ones 10).
  rewrite N.land_ones, N.shiftr_div_pow2. change (2 ^ 10) with 1024.
  assert ((c - 65536) / 1024 < 1024) by (apply N.Div0.div_lt_upper_bound; lia).
  rewrite N.mod_small by done.
  change 55296 with (N.shiftl 54 10). rewrite lor_shiftl by done. reflexivity.
Qed.

Lemma low_surrogate_eq c : low_surrogate c = 56320 + (c - 65536) mod 1024.
Proof.
  unfold low_surrogate. change 1023 with (N.ones 10). rewrite N.land_ones.
  change (2 ^ 10) with 1024. change 56320 with (N.shiftl 55 10).
  rewrite lor_shiftl by (by apply N.mod_lt). reflexivity.
Qed.

Lemma join_surrogates_of c :
  65536 <= c < 1114112 -> join_surrogates (high_surrogate c) (low_surrogate c) = c.
Proof.
  intros Hc. unfold join_surrogates. rewrite high_surrogate_eq, low_surrogate_eq by done.
  change 1023 with (N.ones 10). rewrite !N.land_ones. change (2 ^ 10) with 1024.
  rewrite lor_shiftl by (by apply N.mod_lt). change (2 ^ 10) with 1024.
  pose proof (N.div_mod (c - 65536) 1024) as Hdiv.
  assert ((c - 65536) / 1024 < 1024) by (apply N.Div0.div_lt_upper_bound; lia).
  assert ((c - 65536) mod 1024 < 1024) by (by apply N.mod_lt).
  set (q := (c - 65536) / 1024) in *. set (r := (c - 65536) mod 1024) in *.
  change 55296 with (54 * 1024). change 56320 with (55 * 1024).
  rewrite !(N.add_comm (_ * 1024)), !N.Div0.mod_add, !N.mod_small by done. lia.
Qed.

Lemma high_surrogate_range c : 65536 <= c < 1114112 -> 55296 <= high_surrogate c <= 56319.
Proof.
  intros Hc. rewrite high_surrogate_eq by done.
  assert ((c - 65536) / 1024 < 1024) as Hq by (apply N.Div0.div_lt_upper_bound; lia).
  revert Hq. generalize ((c - 65536) / 1024). intros q Hq. lia.
Qed.

Lemma low_surrogate_range c : 56320 <= low_surrogate c <= 57343.
Proof.
  rewrite low_surrogate_eq. assert ((c - 65536) mod 1024 < 1024) as Hr by (by apply N.mod_lt).
  revert Hr. generalize ((c - 65536) mod 1024). intros r Hr. lia.
Qed.

(** * Strings through the encoder and the scanner *)

Lemma scanstring_plain c t :
  c <> 34 -> c <> 92 -> 32 <= c -> scanstring (c :: t) = push c (scanstring t).
Proof.
  intros H34 H92 H32. simpl.
  rewrite (proj2 (N.eqb_neq c 34)), (proj2 (N.eqb_neq c 92)) by done.
  by rewrite (proj2 (N.leb_gt c 31)) by lia.
Qed.

Lemma scanstring_simple e c t :
  e <> 117 -> unescape e = Some c -> scanstring (92 :: e :: t) = push c (scanstring t).
Proof.
  intros H117 He. simpl. by rewrite (proj2 (N.eqb_neq e 117)), He by done.
Qed.

Lemma scanstring_unicode h1 h2 h3 h4 uni t :
  decode_hex4 h1 h2 h3 h4 = Some uni -> t <> [] ->
  (is_high_surrogate uni = true -> no_low_escape t) ->
  scanstring (92 :: 117 :: h1 :: h2 :: h3 :: h4 :: t) = push uni (scanstring t).
Proof.
  intros Huni Ht Hlow. destruct t as [|b t]; [done|].
  cbn [scanstring]. change (92 =? 34) with false. change (92 =? 92) with true.
  change (117 =? 117) with true. cbv iota. rewrite Huni.
  destruct (is_high_surrogate uni); [|done].
  destruct t as [|u [|g1 [|g2 [|g3 [|g4 [|x t]]]]]]; try done.
  destruct (N.eqb_spec b 92) as [->|]; [|done].
  destruct (N.eqb_spec u 117) as [->|]; [|done]. cbn [andb].
  destruct (Hlow eq_refl g1 g2 g3 g4 (x :: t) eq_refl) as (uni2 & -> & ->). done.
Qed.

Lemma scanstring_pair h1 h2 h3 h4 g1 g2 g3 g4 hi lo t :
  decode_hex4 h1 h2 h3 h4 = Some hi -> is_high_surrogate hi = true ->
  decode_hex4 g1 g2 g3 g4 = Some lo -> is_low_surrogate lo = true -> t <> [] ->
  scanstring (92 :: 117 :: h1 :: h2 :: h3 :: h4 :: 92 :: 117 :: g1 :: g2 :: g3 :: g4 :: t) =
  push (join_surrogates hi lo) (scanstring t).
Proof.
  intros Hhi Hhigh Hlo Hlow Ht. destruct t as [|x t]; [done|].
  cbn [scanstring]. change (92 =? 34) with false. change (92 =? 92) with true.
  change (117 =? 117) with true. cbv iota. cbn [andb]. by rewrite Hhi, Hhigh, Hlo, Hlow.
Qed.

Lemma escape_char_shape c : escape_shape c.
Proof.
  unfold escape_char.
  destruct (N.eqb_spec c 34) as [->|?]; [by eapply shape_simple|].
  destruct (N.eqb_spec c 92) as [->|?]; [by eapply shape_simple|].
  destruct (N.eqb_spec c 10) as [->|?]; [by eapply shape_simple|].
  destruct (N.eqb_spec c 13) as [->|?]; [by eapply shape_simple|].
  destruct (N.eqb_spec c 9) as [->|?]; [by eapply shape_simple|].
  destruct (N.eqb_spec c 12) as [->|?]; [by eapply shape_simple|].
  destruct (N.eqb_spec c 8) as [->|?]; [by eapply shape_simple|].
  destruct (N.leb_spec 32 c); simpl.
  - destruct (N.leb_spec c 126); simpl.
    + apply shape_plain; try done. unfold escape_char.
      repeat (rewrite (proj2 (N.eqb_neq c _)) by done).
      by rewrite (proj2 (N.leb_le 32 c)), (proj2 (N.leb_le c 126)) by done.
    + destruct (N.ltb_spec c 65536); [apply shape_unicode | apply shape_pair]; try done;
        unfold escape_char; repeat (rewrite (proj2 (N.eqb_neq c _)) by done);
        rewrite (proj2 (N.leb_le 32 c)), (proj2 (N.leb_gt c 126)) by done; simpl.
      * by rewrite (proj2 (N.ltb_lt c 65536)).
      * by rewrite (proj2 (N.ltb_ge c 65536)).
  - apply shape_unicode; [|lia]. unfold escape_char.
    repeat (rewrite (proj2 (N.eqb_neq c _)) by done).
    rewrite (proj2 (N.leb_gt 32 c)) by done. simpl.
    by rewrite (proj2 (N.ltb_lt c 65536)) by lia.
Qed.

Lemma escaped_no_low_escape s rest :
  Forall code_point s ->
  match s with c :: _ => is_low_surrogate c = false | [] => True end ->
  no_low_escape ((s ≫= escape_char) ++ 34 :: rest).
Proof.
  intros Hs Hhead g1 g2 g3 g4 t'. destruct s as [|c s]; [done|].
  rewrite bind_cons. inversion_clear Hs as [|? ? Hc _].
  destruct (escape_char_shape c) as [->| e -> He _ | -> Hlt | -> Hge].
  - simpl. intros [= -> _]. done.
  - simpl. intros [= -> _]. done.
  - destruct (scan_u_escape c Hlt) as (h1 & h2 & h3 & h4 & -> & Hdec).
    simpl. intros [= <- <- <- <- _]. by exists c.
  - assert (65536 <= c < 1114112) as Hrange by (unfold code_point in Hc; lia).
    pose proof (high_surrogate_range c Hrange) as Hhigh.
    destruct (scan_u_escape (high_surrogate c)) as (h1 & h2 & h3 & h4 & -> & Hdec); [lia|].
    simpl. intros [= <- <- <- <- _]. exists (high_surrogate c). split; [done|].
    unfold is_low_surrogate. apply andb_false_iff. left. apply N.leb_gt. lia.
Qed.

Lemma scanstring_escaped s rest :
  Forall code_point s -> has_surrogate_pair s = false ->
  scanstring ((s ≫= escape_char) ++ 34 :: rest) = Ok (s, rest).
Proof.
  induction s as [|c s IH]; intros Hs Hpair; [done|].
  inversion Hs as [|? ? Hc Hs']; subst.
  assert (has_surrogate_pair s = false /\
          (is_high_surrogate c = true ->
           match s with c' :: _ => is_low_surrogate c' = false | [] => True end))
    as [Hpair' Hnext].
  { simpl in Hpair. destruct s as [|c' s]; [done|].
    apply orb_false_iff in Hpair as [Hcc' Hrest]. split; [done|].
    intros Hhigh. by rewrite Hhigh in Hcc'. }
  specialize (IH Hs' Hpair'). rewrite bind_cons, <- app_assoc.
  set (t := (s ≫= escape_char) ++ 34 :: rest) in *.
  assert (t <> []) as Ht by (subst t; by destruct (s ≫= escape_char)).
  destruct (escape_char_shape c) as [->| e -> He Hun | -> Hlt | -> Hge].
  - cbn [app]. rewrite scanstring_plain by done. by rewrite IH.
  - cbn [app]. rewrite (scanstring_simple e c) by done. by rewrite IH.
  - destruct (scan_u_escape c Hlt) as (h1 & h2 & h3 & h4 & -> & Hdec). cbn [app].
    rewrite (scanstring_unicode _ _ _ _ c); [by rewrite IH|done|done|].
    intros Hhigh. subst t. apply escaped_no_low_escape; [done|]. exact (Hnext Hhigh).
  - assert (65536 <= c < 1114112) as Hrange by (unfold code_point in Hc; lia).
    pose proof (high_surrogate_range c Hrange) as Hhigh. pose proof (low_surrogate_range c) as Hlow.
    destruct (scan_u_escape (high_surrogate c)) as (h1 & h2 & h3 & h4 & -> & Hdec); [lia|].
    destruct (scan_u_escape (low_surrogate c)) as (g1 & g2 & g3 & g4 & -> & Hdec'); [lia|].
    cbn [app]. rewrite (scanstring_pair _ _ _ _ _ _ _ _ (high_surrogate c) (low_surrogate c)); try done.
    + by rewrite join_surrogates_of, IH.
    + unfold is_high_surrogate. apply andb_true_iff. split; apply N.leb_le; lia.
    + unfold is_low_surrogate. apply andb_true_iff. split; apply N.leb_le; lia.
Qed.

(** * Integers through the encoder and the scanner *)

Lemma uint_of_digits_chars u : uint_of_digits (chars_of_uint u) = u.
Proof. induction u; simpl; by f_equal. Qed.

Lemma chars_of_uint_digits u : Forall (fun c => is_digit c = true) (chars_of_uint u).
Proof. induction u; simpl; by constructor. Qed.

Lemma span_digits_app ds c rest :
  Forall (fun c => is_digit c = true) ds -> is_digit c = false ->
  span_digits (ds ++ c :: rest) = (ds, c :: rest).
Proof.
  intros Hds Hc. induction Hds as [|d ds Hd _ IH]; simpl.
  - by rewrite Hc.
  - by rewrite Hd, IH.
Qed.

Lemma to_uint_normal p : nzhead (Pos.to_uint p) = Pos.to_uint p.
Proof.
  pose proof (DecimalPos.Unsigned.to_of (Pos.to_uint p)) as Hnorm.
  rewrite DecimalPos.Unsigned.of_to in Hnorm. simpl in Hnorm.
  pose proof (DecimalPos.Unsigned.to_uint_nonzero p) as Hnz.
  unfold unorm in Hnorm. destruct (nzhead (Pos.to_uint p)) eqn:Hhead; try done.
Qed.

Lemma to_uint_head p :
  exists d ds, chars_of_uint (Pos.to_uint p) = d :: ds /\ 49 <= d <= 57.
Proof.
  pose proof (to_uint_normal p) as Hnorm.
  pose proof (nzhead_nonzero (Pos.to_uint p)) as Hnz. rewrite Hnorm in Hnz.
  pose proof (DecimalPos.Unsigned.to_uint_nonnil p) as Hnil.
  destruct (Pos.to_uint p) as [|u|u|u|u|u|u|u|u|u|u]; simpl;
    [done | exfalso; by eapply Hnz | ..]; do 2 eexists; (split; [reflexivity|lia]).
Qed.

Lemma scan_after_integer negative digits c rest :
  closes_item c ->
  (let '(frac, s3) := scan_fraction (c :: rest) in
   let '(exponent, s4) := scan_exponent s3 in
   match frac, exponent with
   | [], [] => Ok (PyInt (int_of_literal negative digits), s4)
   | _, _ =>
       Ok (PyFloat ((if negative then [45] else []) ++ digits ++ frac ++ exponent), s4)
   end) = Ok (PyInt (int_of_literal negative digits), c :: rest).
Proof. intros [-> | ->]; by destruct rest. Qed.

Lemma match_number_digits (negative : bool) d ds c rest :
  49 <= d <= 57 -> Forall (fun c => is_digit c = true) ds -> closes_item c ->
  match_number ((if negative then [45] else []) ++ d :: ds ++ c :: rest) =
  Ok (PyInt (int_of_literal negative (d :: ds)), c :: rest).
Proof.
  intros Hd Hds Hc.
  assert (is_digit c = false) as Hcd by (by destruct Hc as [->| ->]).
  assert (scan_sign ((if negative then [45] else []) ++ d :: ds ++ c :: rest) =
          (negative, d :: ds ++ c :: rest)) as Hsign.
  { destruct negative; [done|]. cbn [app scan_sign].
    by rewrite (proj2 (N.eqb_neq d 45)) by lia. }
  assert (scan_integer (d :: ds ++ c :: rest) = Some (d :: ds, c :: rest)) as Hint.
  { cbn [scan_integer].
    rewrite (proj2 (andb_true_iff _ _)) by (split; apply N.leb_le; lia).
    by rewrite span_digits_app. }
  unfold match_number. rewrite Hsign, Hint. by apply scan_after_integer.
Qed.

Lemma match_number_int_repr z c rest :
  closes_item c -> match_number (int_repr z ++ c :: rest) = Ok (PyInt z, c :: rest).
Proof.
  intros Hc. destruct z as [|p|p]; simpl int_repr.
  - apply (scan_after_integer false [48] c rest Hc).
  - destruct (to_uint_head p) as (d & ds & Heq & Hd).
    pose proof (chars_of_uint_digits (Pos.to_uint p)) as Hdigits. rewrite Heq in *.
    inversion_clear Hdigits as [|? ? _ Hds].
    change ((d :: ds) ++ c :: rest) with ([] ++ d :: ds ++ c :: rest).
    rewrite (match_number_digits false d ds c rest) by done. do 2 f_equal.
    unfold int_of_literal. rewrite <- Heq, uint_of_digits_chars.
    change (N.of_uint (Pos.to_uint p)) with (Pos.of_uint (Pos.to_uint p)).
    by rewrite DecimalPos.Unsigned.of_to.
  - destruct (to_uint_head p) as (d & ds & Heq & Hd).
    pose proof (chars_of_uint_digits (Pos.to_uint p)) as Hdigits. rewrite Heq in *.
    inversion_clear Hdigits as [|? ? _ Hds].
    change ((45 :: d :: ds) ++ c :: rest) with ([45] ++ d :: ds ++ c :: rest).
    rewrite (match_number_digits true d ds c rest) by done. do 2 f_equal.
    unfold int_of_literal. rewrite <- Heq, uint_of_digits_chars.
    change (N.of_uint (Pos.to_uint p)) with (Pos.of_uint (Pos.to_uint p)).
    by rewrite DecimalPos.Unsigned.of_to.
Qed.

Lemma int_repr_head z :
  exists d ds, int_repr z = d :: ds /\ (d = 45 \/ 48 <= d <= 57).
Proof.
  destruct z as [|p|p]; simpl.
  - do 2 eexists. split; [reflexivity|lia].
  - destruct (to_uint_head p) as (d & ds & -> & Hd). do 2 eexists. split; [reflexivity|lia].
  - do 2 eexists. split; [reflexivity|lia].
Qed.

Lemma scan_once_other fuel c s1 :
  c <> 34 -> c <> 123 -> c <> 91 ->
  scan_once (S fuel) (c :: s1) =
  match scan_constant (c :: s1) with
  | Some r => Ok r
  | None => match_number (c :: s1)
  end.
Proof.
  intros H34 H123 H91. cbn [scan_once].
  by rewrite (proj2 (N.eqb_neq c 34)), (proj2 (N.eqb_neq c 123)), (proj2 (N.eqb_neq c 91)).
Qed.

Lemma scan_constant_int_repr z t : scan_constant (int_repr z ++ t) = None.
Proof.
  destruct z as [|p|p]; simpl int_repr.
  - done.
  - destruct (to_uint_head p) as (d & ds & -> & Hd). cbn [app scan_constant].
    by repeat (rewrite (proj2 (N.eqb_neq d _)) by lia).
  - destruct (to_uint_head p) as (d & ds & -> & Hd). cbn [app scan_constant].
    change (45 =? 110) with false. change (45 =? 116) with false.
    change (45 =? 102) with false. change (45 =? 78) with false.
    change (45 =? 73) with false. change (45 =? 45) with true. cbv iota.
    change (str "-Infinity") with [45; 73; 110; 102; 105; 110; 105; 116; 121].
    cbn [strip_prefix]. change (45 =? 45) with true. cbv iota.
    by rewrite (proj2 (N.eqb_neq 73 d)) by lia.
Qed.

Lemma scan_once_int_repr fuel z c rest :
  closes_item c ->
  scan_once (S fuel) (int_repr z ++ c :: rest) = Ok (PyInt z, c :: rest).
Proof.
  intros Hc. rewrite <- (match_number_int_repr z c rest Hc).
  pose proof (scan_constant_int_repr z (c :: rest)) as Hconst.
  destruct (int_repr_head z) as (d & ds & Heq & Hd). rewrite Heq in *. cbn [app] in *.
  rewrite scan_once_other by lia. by rewrite Hconst.
Qed.

(** * Lists and dictionaries through the encoder and the decoder *)

Lemma parse_array_S fuel s rval :
  parse_array (S fuel) s rval =
  '(val, s1) ← scan_once fuel s;
  match skip_ws s1 with
  | [] => Raise JSONDecodeError
  | d :: s2 =>
      if d =? 93 then Ok (PyList (rval ++ [val]), s2)
      else if d =? 44 then parse_array fuel (skip_ws s2) (rval ++ [val])
      else Raise JSONDecodeError
  end.
Proof. reflexivity. Qed.

Lemma parse_object_S fuel c s1 rval :
  parse_object (S fuel) (c :: s1) rval =
  if c =? 34 then
    '(key, s2) ← scanstring s1;
    match skip_ws s2 with
    | [] => Raise JSONDecodeError
    | colon :: s3 =>
        if colon =? 58 then
          '(val, s4) ← scan_once fuel (skip_ws s3);
          match skip_ws s4 with
          | [] => Raise JSONDecodeError
          | d :: s5 =>
              if d =? 125 then Ok (PyDict (dict_setitem key val rval), s5)
              else if d =? 44 then parse_object fuel (skip_ws s5) (dict_setitem key val rval)
              else Raise JSONDecodeError
          end
        else Raise JSONDecodeError
    end
  else Raise JSONDecodeError.
Proof. reflexivity. Qed.

Lemma scan_once_array fuel s1 :
  scan_once (S fuel) (91 :: s1) =
  match skip_ws s1 with
  | c2 :: s2 => if c2 =? 93 then Ok (PyList [], s2) else parse_array fuel (c2 :: s2) []
  | [] => parse_array fuel [] []
  end.
Proof. reflexivity. Qed.

Lemma scan_once_object fuel s1 :
  scan_once (S fuel) (123 :: s1) =
  match skip_ws s1 with
  | c2 :: s2 => if c2 =? 125 then Ok (PyDict [], s2) else parse_object fuel (c2 :: s2) []
  | [] => parse_object fuel [] []
  end.
Proof. reflexivity. Qed.

Lemma skip_ws_stop c t : is_ws c = false -> skip_ws (c :: t) = c :: t.
Proof. intros Hc. simpl. by rewrite Hc. Qed.

Lemma skip_ws_space t : skip_ws (32 :: t) = skip_ws t.
Proof. reflexivity. Qed.

Lemma skip_ws_int_repr z t : skip_ws (int_repr z ++ t) = int_repr z ++ t.
Proof.
  destruct (int_repr_head z) as (d & ds & -> & Hd). cbn [app]. apply skip_ws_stop.
  unfold is_ws. by repeat (rewrite (proj2 (N.eqb_neq d _)) by lia).
Qed.

Lemma parse_array_ints fuel z l rest acc :
  (length l <= fuel)%nat ->
  parse_array (S (S fuel)) (int_repr z ++ join_rest [44; 32] (int_repr <$> l) ++ 93 :: rest) acc =
  Ok (PyList (acc ++ (PyInt <$> z :: l)), rest).
Proof.
  revert fuel z acc. induction l as [|z' l IH]; intros fuel z acc Hfuel.
  - rewrite parse_array_S. cbn [fmap list_fmap join_rest app].
    rewrite scan_once_int_repr by by right. done.
  - destruct fuel as [|fuel]; [simpl in Hfuel; lia|].
    rewrite parse_array_S. rewrite fmap_cons. cbn [join_rest].
    rewrite <- !app_assoc. cbn [app].
    rewrite scan_once_int_repr by by left. cbn [mbind result_bind].
    rewrite (skip_ws_stop 44) by done.
    change (44 =? 93) with false. change (44 =? 44) with true. cbv iota.
    rewrite skip_ws_space, skip_ws_int_repr.
    rewrite IH by (simpl in Hfuel; lia).
    by rewrite <- app_assoc.
Qed.

Lemma skip_ws_encode_list l t : skip_ws (encode_list l ++ t) = encode_list l ++ t.
Proof. done. Qed.

Lemma skip_ws_encode_item item t : skip_ws (encode_item item ++ t) = encode_item item ++ t.
Proof. done. Qed.

Lemma scan_once_encode_list fuel l rest :
  (length l <= fuel)%nat ->
  scan_once (S (S (S fuel))) (encode_list l ++ rest) = Ok (PyList (PyInt <$> l), rest).
Proof.
  intros Hfuel. unfold encode_list. cbn [app]. rewrite scan_once_array.
  destruct l as [|z l]; [done|].
  rewrite fmap_cons. cbn [join]. rewrite <- !app_assoc. rewrite skip_ws_int_repr.
  pose proof (parse_array_ints fuel z l rest []) as Hparse.
  destruct (int_repr_head z) as (d & ds & Heq & Hd).
  rewrite Heq in *. cbn [app] in *.
  rewrite (proj2 (N.eqb_neq d 93)) by lia.
  apply Hparse. simpl in Hfuel. lia.
Qed.

Lemma encode_item_eq k l t :
  encode_item (k, l) ++ t = 34 :: (k ≫= escape_char) ++ 34 :: 58 :: 32 :: encode_list l ++ t.
Proof.
  unfold encode_item, encode_basestring_ascii. cbn [fst snd].
  rewrite <- !app_assoc. reflexivity.
Qed.

Lemma parse_object_item fuel k l t acc :
  (length l <= fuel)%nat -> json_safe k ->
  parse_object (S (S (S (S fuel)))) (encode_item (k, l) ++ t) acc =
  match skip_ws t with
  | [] => Raise JSONDecodeError
  | d :: s5 =>
      if d =? 125 then Ok (PyDict (dict_setitem k (PyList (PyInt <$> l)) acc), s5)
      else if d =? 44
           then parse_object (S (S (S fuel))) (skip_ws s5)
                  (dict_setitem k (PyList (PyInt <$> l)) acc)
           else Raise JSONDecodeError
  end.
Proof.
  intros Hfuel [Hk Hpair]. rewrite encode_item_eq, parse_object_S.
  change (34 =? 34) with true. cbv iota.
  rewrite scanstring_escaped by done. cbn [mbind result_bind].
  rewrite (skip_ws_stop 58) by done. change (58 =? 58) with true. cbv iota.
  rewrite skip_ws_space, skip_ws_encode_list, scan_once_encode_list by done.
  reflexivity.
Qed.

Lemma parse_object_items fuel item items rest acc :
  (weight (item :: items) <= fuel)%nat ->
  Forall json_safe (keys (item :: items)) ->
  parse_object fuel
    (encode_item item ++ join_rest [44; 32] (encode_item <$> items) ++ 125 :: rest) acc =
  Ok (PyDict (foldl (fun acc item => dict_setitem item.1 (PyList (PyInt <$> item.2)) acc)
                    acc (item :: items)), rest).
Proof.
  revert fuel item acc. induction items as [|item' items IH]; intros fuel [k l] acc Hfuel Hkeys;
    inversion Hkeys as [|? ? Hk Hkeys']; subst; simpl in Hk;
    cbn [weight snd] in Hfuel;
    destruct fuel as [|[|[|[|fuel]]]]; try lia;
    rewrite parse_object_item by (done || lia).
  - done.
  - rewrite fmap_cons. cbn [join_rest]. rewrite <- !app_assoc. cbn [app].
    rewrite (skip_ws_stop 44) by done.
    change (44 =? 125) with false. change (44 =? 44) with true. cbv iota.
    rewrite skip_ws_space, skip_ws_encode_item.
    rewrite IH; [done| cbn [weight] in *; lia | done].
Qed.

Lemma foldl_setitem_new (items : dict pystr (list Z)) (acc : dict pystr pyval) :
  NoDup (keys acc ++ keys items) ->
  foldl (fun acc item => dict_setitem item.1 (PyList (PyInt <$> item.2)) acc) acc items =
  acc ++ (py_of_item <$> items).
Proof.
  revert acc. induction items as [|[k l] items IH]; intros acc Hnodup; simpl.
  - by rewrite app_nil_r.
  - simpl in Hnodup. rewrite dict_setitem_new.
    + rewrite IH.
      * by rewrite <- app_assoc.
      * unfold keys in *. rewrite fmap_app. simpl. by rewrite <- app_assoc.
    + apply dict_lookup_None. apply NoDup_app in Hnodup as (_ & Hdisj & _).
      intros Hin. apply (Hdisj k Hin). apply list_elem_of_here.
Qed.

Lemma length_int_repr z : (1 <= length (int_repr z))%nat.
Proof. destruct (int_repr_head z) as (d & ds & -> & _). simpl. lia. Qed.

Lemma length_join_rest_ints l :
  (length l <= length (join_rest [44; 32]%N (int_repr <$> l)))%nat.
Proof.
  induction l as [|z l IH]; [simpl; lia|].
  rewrite fmap_cons. cbn [join_rest]. rewrite !length_app. cbn [length].
  pose proof (length_int_repr z). lia.
Qed.

Lemma length_encode_item item : (length item.2 + 4 <= length (encode_item item))%nat.
Proof.
  destruct item as [k l]. unfold encode_item, encode_basestring_ascii, encode_list.
  cbn [fst snd]. rewrite !length_app. cbn [length].
  destruct l as [|z l]; [simpl; lia|].
  rewrite fmap_cons. cbn [join length]. rewrite length_app.
  pose proof (length_int_repr z). pose proof (length_join_rest_ints l). lia.
Qed.

Lemma weight_join_rest d :
  (weight d <= length (join_rest [44; 32]%N (encode_item <$> d)))%nat.
Proof.
  induction d as [|item d IH]; [simpl; lia|].
  rewrite fmap_cons. cbn [join_rest weight]. rewrite !length_app. cbn [length].
  pose proof (length_encode_item item). lia.
Qed.

Lemma weight_dumps d : (weight d < length (dumps d))%nat.
Proof.
  unfold dumps. rewrite !length_app. cbn [length].
  destruct d as [|item d]; [simpl; lia|].
  rewrite fmap_cons. cbn [join weight]. rewrite length_app.
  pose proof (length_encode_item item). pose proof (weight_join_rest d). lia.
Qed.

Lemma loads_dumps (d : dict pystr (list Z)) :
  dict_wf d -> Forall json_safe (keys d) -> loads (dumps d) = Ok (py_of_index d).
Proof.
  intros Hwf Hkeys. pose proof (weight_dumps d) as Hweight.
  unfold loads. set (fuel := (2 * length (dumps d) + 2)%nat).
  assert (weight d + 1 < fuel)%nat as Hfuel by lia. clearbody fuel. clear Hweight.
  unfold dumps. cbn [app]. change (startswith [65279] (123 :: _)) with false. cbv iota.
  rewrite (skip_ws_stop 123) by done.
  destruct fuel as [|fuel]; [lia|]. rewrite scan_once_object.
  destruct d as [|item d]; [done|].
  rewrite fmap_cons. cbn [join]. rewrite <- !app_assoc, skip_ws_encode_item.
  pose proof (parse_object_items fuel item d [] [] ltac:(lia) Hkeys) as Hparse.
  destruct item as [k l]. rewrite encode_item_eq in *.
  change (34 =? 125) with false. cbv iota. rewrite Hparse.
  cbn [mbind result_bind skip_ws]. rewrite foldl_setitem_new; [done|].
  exact Hwf.
Qed.

Lemma load_dump (idx : InvertedIndex) (filepath : pystr) (files : gmap pystr pystr) :
  load filepath (dump idx filepath files) =
  words_ids ← loads (dumps (words_ids idx)); mret (cls words_ids).
Proof. unfold load, dump. by rewrite lookup_insert_eq. Qed.


(** * The decoder accepts only JSON *)










Lemma is_digit_digit c : is_digit c = true -> digit c.
Proof.
  unfold is_digit, digit. intros [H1 H2]%andb_true_iff.
  apply N.leb_le in H1, H2. lia.
Qed.












Lemma scan_once_S fuel c s1 :
  scan_once (S fuel) (c :: s1) =
  if c =? 34 then '(key, rest) ← scanstring s1; Ok (PyStr key, rest)
  else if c =? 123 then
    match skip_ws s1 with
    | c2 :: s2 => if c2 =? 125 then Ok (PyDict [], s2) else parse_object fuel (c2 :: s2) []
    | [] => parse_object fuel [] []
    end
  else if c =? 91 then
    match skip_ws s1 with
    | c2 :: s2 => if c2 =? 93 then Ok (PyList [], s2) else parse_array fuel (c2 :: s2) []
    | [] => parse_array fuel [] []
    end
  else
    match scan_constant (c :: s1) with
    | Some r => Ok r
    | None => match_number (c :: s1)
    end.
Proof. reflexivity. Qed.













(** * The decoder accepts all of JSON *)


































(** * The keys of a built index *)

Section DictWf.
Context {K V : Type} `{EqDecision K}.
Implicit Types (k : K) (v : V) (d : dict K V).

Lemma elem_of_keys_setitem x k v d :
  x ∈ keys (dict_setitem k v d) <-> x = k \/ x ∈ keys d.
Proof.
  unfold keys. induction d as [|[k' v'] d IH]; simpl.
  - rewrite list_elem_of_singleton. split; [by left|].
    intros [?|Hx]; [done|by apply elem_of_nil in Hx].
  - destruct (decide (k = k')) as [->|Hne]; simpl.
    + rewrite !elem_of_cons. tauto.
    + rewrite !elem_of_cons, IH. tauto.
Qed.

Lemma dict_setitem_wf k v d : dict_wf d -> dict_wf (dict_setitem k v d).
Proof.
  unfold dict_wf. induction d as [|[k' v'] d IH]; simpl.
  - intros _. apply NoDup_singleton.
  - rewrite NoDup_cons. intros [Hk' Hd].
    destruct (decide (k = k')) as [->|Hne]; simpl; apply NoDup_cons.
    + done.
    + split; [|by apply IH]. fold (keys (dict_setitem k v d)).
      rewrite elem_of_keys_setitem. intros [?|?]; [by subst|done].
Qed.
End DictWf.

Lemma index_words_wf `{UnicodeData} doc_id cleaned_text d d' :
  index_words doc_id cleaned_text d = Ok d' -> dict_wf d -> dict_wf d'.
Proof.
  revert d. induction cleaned_text as [|word rest IH]; intros d.
  - by intros [= <-].
  - rewrite index_words_step. intros Hd' Hd. apply (IH _ Hd'). by apply dict_setitem_wf.
Qed.

Lemma index_documents_wf `{UnicodeData} documents d d' :
  index_documents documents d = Ok d' -> dict_wf d -> dict_wf d'.
Proof.
  revert d. induction documents as [|[doc_id text] rest IH]; intros d; simpl.
  - by intros [= <-].
  - destruct (index_words doc_id (tokenize text) d) as [d1|] eqn:Hd1; [|done].
    simpl. intros Hd' Hd. apply (IH _ Hd'). by eapply index_words_wf.
Qed.

(** The keys of a built index are pairwise distinct. *)
Lemma build_dict_wf `{UnicodeData} documents idx :
  build_inverted_index documents = Ok idx -> dict_wf (words_ids idx).
Proof.
  unfold build_inverted_index.
  destruct (index_documents documents []) as [d|] eqn:Hd; [|done].
  intros [= <-]. simpl. eapply index_documents_wf; [exact Hd|]. constructor.
Qed.

(** * The encoder writes printable ASCII *)

Lemma hex_char_printable d : d < 16 -> printable (hex_char d).
Proof.
  intros Hd. unfold hex_char, printable. destruct (N.ltb_spec d 10); lia.
Qed.

Lemma u_escape_printable n : n < 65536 -> Forall printable (u_escape n).
Proof.
  intros Hn. unfold u_escape.
  assert (n / 4096 < 16) by (apply N.Div0.div_lt_upper_bound; lia).
  repeat constructor; try (unfold printable; lia);
    apply hex_char_printable; (done || by apply N.mod_lt).
Qed.

Lemma escape_char_printable c : code_point c -> Forall printable (escape_char c).
Proof.
  intros Hc. unfold escape_char.
  repeat match goal with
         | |- context [c =? ?n] =>
             destruct (N.eqb_spec c n) as [->|?];
             [repeat constructor; unfold printable; lia|]
         end.
  assert (c < 65536 -> Forall printable (u_escape c)) as Hbmp
    by apply u_escape_printable.
  assert (65536 <= c ->
          Forall printable (u_escape (high_surrogate c) ++ u_escape (low_surrogate c)))
    as Hpair.
  { intros Hge. assert (65536 <= c < 1114112) as Hrange by (unfold code_point in Hc; lia).
    pose proof (high_surrogate_range c Hrange). pose proof (low_surrogate_range c).
    apply Forall_app; split; apply u_escape_printable; lia. }
  destruct (N.leb_spec 32 c), (N.leb_spec c 126), (N.ltb_spec c 65536); simpl; auto.
  - apply Forall_cons. split; [done|constructor].
  - apply Forall_cons. split; [done|constructor].
Qed.

Lemma int_repr_printable z : Forall printable (int_repr z).
Proof.
  assert (forall u, Forall printable (chars_of_uint u)) as Hdigits.
  { intros u. eapply Forall_impl; [apply chars_of_uint_digits|].
    intros c Hc%is_digit_digit. unfold digit in Hc. unfold printable. lia. }
  destruct z as [|p|p]; simpl; [| apply Hdigits | constructor; [|apply Hdigits]];
    repeat constructor; unfold printable; lia.
Qed.

Lemma join_printable (items : list pystr) :
  Forall (Forall printable) items -> Forall printable (join [44; 32] items).
Proof.
  assert (forall items, Forall (Forall printable) items ->
                        Forall printable (join_rest [44; 32] items)) as Hrest.
  { induction 1 as [|item items' Hitem _ IH]; simpl; [constructor|].
    repeat (constructor; [unfold printable; lia|]). by apply Forall_app. }
  destruct 1 as [|item items' Hitem Hitems]; simpl; [constructor|].
  apply Forall_app. split; [done|by apply Hrest].
Qed.

Lemma encode_list_printable l : Forall printable (encode_list l).
Proof.
  unfold encode_list. constructor; [unfold printable; lia|].
  apply Forall_app. split; [|repeat constructor; unfold printable; lia].
  apply join_printable. apply Forall_fmap, Forall_forall. intros z _.
  apply int_repr_printable.
Qed.

Lemma encode_item_printable item :
  Forall code_point item.1 -> Forall printable (encode_item item).
Proof.
  intros Hk. unfold encode_item, encode_basestring_ascii.
  apply Forall_app. split; [|apply Forall_app; split].
  - constructor; [unfold printable; lia|]. apply Forall_app. split.
    + apply Forall_bind. eapply Forall_impl; [exact Hk|]. apply escape_char_printable.
    + repeat constructor; unfold printable; lia.
  - repeat constructor; unfold printable; lia.
  - apply encode_list_printable.
Qed.

(** Whatever the index, as long as its keys are strings of code points,
    [dump] writes printable ASCII characters only. *)
Lemma dumps_printable d :
  Forall (Forall code_point) (keys d) -> Forall printable (dumps d).
Proof.
  intros Hkeys. unfold dumps. constructor; [unfold printable; lia|].
  apply Forall_app. split; [|repeat constructor; unfold printable; lia].
  apply join_printable. apply Forall_fmap, Forall_forall. intros item Hitem.
  apply encode_item_printable. unfold keys in Hkeys.
  rewrite Forall_fmap, Forall_forall in Hkeys. by apply Hkeys.
Qed.

(** * The properties of the specification *)

Lemma build_inverted_index_spec `{UnicodeData} (documents : dict Z pystr) :
  exists idx,
    build_inverted_index documents = Ok idx /\
    (forall word, postings (words_ids idx) word = spec_postings documents word) /\
    Forall (fun item => postings_from (keys documents) item.2) (words_ids idx).
Proof.
  unfold build_inverted_index.
  destruct (index_documents_total documents []) as [d Hd]. rewrite Hd.
  eexists. split; [reflexivity|]. simpl. split.
  - intros word. by rewrite (index_documents_postings _ _ _ _ Hd).
  - apply (index_documents_invariant [] documents [] d Hd). constructor.
Qed.

Lemma build_milk `{UnicodeData} :
  build_inverted_index [(1%Z, str "Milk")] = Ok (mkInvertedIndex [(str "milk", [1%Z])]).
Proof.
  unfold build_inverted_index. simpl. unfold tokenize. by rewrite lower_literal.
Qed.




(** C2.  [query] never raises and returns the concatenation, in the order
    of the query, of the stored posting list of every queried term, absent
    terms contributing nothing and repeated terms contributing once per
    repetition: a term queried twice yields its posting list twice. *)
Theorem query_concatenates (idx : InvertedIndex) (words : list pystr) :
  query idx words = Ok (spec_query (words_ids idx) words) /\
  forall word,
    query idx [word; word] =
    Ok (postings (words_ids idx) word ++ postings (words_ids idx) word).
Proof.
  unfold query. split; [apply query_loop_spec|].
  intros word. rewrite query_loop_spec. unfold spec_query, postings. simpl.
  by rewrite app_nil_r.
Qed.

(** C3.  [build_inverted_index] returns an index in which a term is a key
    exactly when it occurs in some document, and its posting list holds the
    identifier of each document, in the iteration order of the mapping, once
    per occurrence of the term in the tokenized text: nothing is
    deduplicated or sorted. *)
Theorem build_appends_per_occurrence `{UnicodeData} (documents : dict Z pystr) :
  exists idx,
    build_inverted_index documents = Ok idx /\
    forall word,
      dict_lookup word (words_ids idx) =
      match spec_postings documents word with
      | [] => None
      | l => Some l
      end.
Proof.
  destruct (build_inverted_index_spec documents) as (idx & Hidx & Hpost & Hinv).
  exists idx. split; [done|]. intros word.
  rewrite <- Hpost. unfold postings.
  destruct (dict_lookup word (words_ids idx)) as [l|] eqn:Hl; simpl; [|done].
  apply dict_lookup_elem_of in Hl. rewrite Forall_forall in Hinv.
  destruct (Hinv _ Hl) as [Hne _]. simpl in Hne. by destruct l.
Qed.

(** C4 (amended).  For the documents [{1: "Milk"}] the index holds the one
    key ["milk"]; [query(["milk"])] returns [[1]] and [query(["Milk"])]
    returns the empty list: [query] looks its terms up as they are given and
    does not lowercase them. *)
Theorem query_matches_terms_verbatim `{UnicodeData} :
  exists idx,
    build_inverted_index [(1%Z, str "Milk")] = Ok idx /\
    words_ids idx = [(str "milk", [1%Z])] /\
    query idx [str "milk"] = Ok [1%Z] /\
    query idx [str "Milk"] = Ok [].
Proof. eexists. split; [apply build_milk|]. by repeat split. Qed.

(** C4 as stated fails: whatever [str.lower] does outside ASCII, the index
    built from [{1: "Milk"}] does not answer [query(["Milk"])] with [[1]]. *)
Lemma query_case_folding_fails :
  ~ exists (U : UnicodeData) idx,
      build_inverted_index [(1%Z, str "Milk")] = Ok idx /\
      query idx [str "milk"] = Ok [1%Z] /\
      query idx [str "Milk"] = Ok [1%Z].
Proof.
  intros (U & idx & Hidx & _ & Hq). rewrite build_milk in Hidx.
  injection Hidx as <-. discriminate Hq.
Qed.




(** C6.  The inline tokenizer [text.lower().split()] is the function that
    lowercases the text, cuts it at every whitespace character and discards
    the empty fragments, keeping the order of the text; its tokens are
    non-empty and free of whitespace; ["Hello World"] gives
    [["hello", "world"]] and the empty string gives no token.  Being a
    function, it is deterministic. *)
Theorem tokenize_policy `{UnicodeData} (text : pystr) :
  tokenize text = spec_tokenize text /\
  Forall token (tokenize text) /\
  tokenize (str "Hello World") = [str "hello"; str "world"] /\
  tokenize [] = [].
Proof.
  unfold tokenize, spec_tokenize, split. split; [apply split_run_fragments|].
  split; [apply split_run_tokens; constructor|].
  split; by rewrite lower_literal.
Qed.

(** C7.  In the index [build_inverted_index] returns, every posting list
    is non-empty and every identifier in it is a key of the document
    mapping. *)
Theorem build_index_invariant `{UnicodeData} (documents : dict Z pystr)
    (idx : InvertedIndex) :
  build_inverted_index documents = Ok idx ->
  Forall (fun item : pystr * list Z =>
            item.2 <> [] /\ Forall (fun doc_id => doc_id ∈ keys documents) item.2)
         (words_ids idx).
Proof.
  intros Hidx. destruct (build_inverted_index_spec documents) as (idx' & Hidx' & _ & Hinv).
  rewrite Hidx in Hidx'. by injection Hidx' as <-.
Qed.

Lemma build_index_invariant_witness :
  Forall (fun item : pystr * list Z =>
            item.2 <> [] /\ Forall (fun doc_id => doc_id ∈ [1%Z; 2%Z]) item.2)
         [(str "milk", [1; 2]%Z); (str "water", [1; 2]%Z); (str "sugar", [2]%Z)].
Proof.
  apply (build_index_invariant (H := ascii_data)
           [(1%Z, str "milk water"); (2%Z, str "milk sugar water")]
           (mkInvertedIndex
              [(str "milk", [1; 2]%Z); (str "water", [1; 2]%Z); (str "sugar", [2]%Z)])).
  reflexivity.
Defined.

(** C8.  [query] and [dump] do not mutate the store: after [query] every
    object that existed before the call is what it was, [dump] changes no
    object at all, and so the dict and the posting lists reachable from
    [self.words_ids] hold the same index after either call as before. *)
Theorem query_and_dump_leave_store (self : Heap.loc) (words : list pystr)
    (filepath : pystr) (w : Heap.world) :
  (forall l, is_Some (Heap.objects w !! l) ->
     Heap.objects (Heap.query self words w).2 !! l = Heap.objects w !! l) /\
  Heap.objects (Heap.dump self filepath w).2 = Heap.objects w /\
  (forall d, Heap.represents w self d ->
     Heap.represents (Heap.query self words w).2 self d /\
     Heap.represents (Heap.dump self filepath w).2 self d).
Proof.
  split; [intros l; apply heap_query_frame|].
  split; [apply heap_dump_objects|].
  intros d Hd. split.
  - eapply represents_ext; [|exact Hd]. intros l. apply heap_query_frame.
  - eapply represents_ext; [|exact Hd]. intros l _.
    by rewrite heap_dump_objects.
Qed.

(** C9.  [build_inverted_index] raises on no document mapping: it always
    returns an index. *)
Theorem build_total `{UnicodeData} (documents : dict Z pystr) :
  exists idx, build_inverted_index documents = Ok idx.
Proof.
  destruct (build_inverted_index_spec documents) as (idx & Hidx & _). by exists idx.
Qed.

(** C10.  On the empty sequence of terms [query] returns the empty list and
    does not raise. *)
Theorem query_empty (idx : InvertedIndex) : query idx [] = Ok [].
Proof. reflexivity. Qed.

(** * The scenarios of the specification, evaluated *)

Example build_scenario :
  build_inverted_index [(1%Z, str "milk water"); (2%Z, str "milk sugar water")] =
  Ok (mkInvertedIndex
        [(str "milk", [1; 2]%Z); (str "water", [1; 2]%Z); (str "sugar", [2]%Z)]).
Proof. reflexivity. Qed.

Example query_scenario :
  let idx := mkInvertedIndex
               [(str "milk", [1; 2]%Z); (str "water", [1; 2]%Z); (str "sugar", [2]%Z)] in
  query idx [str "milk"; str "sugar"] = Ok [1; 2; 2]%Z /\
  query idx [str "absent"] = Ok [].
Proof. by split. Qed.

Example occurrences_scenario :
  build_inverted_index [(7%Z, str "a b a"); (3%Z, str "A")] =
  Ok (mkInvertedIndex [(str "a", [7; 7; 3]%Z); (str "b", [7]%Z)]).
Proof. reflexivity. Qed.

Example dumps_scenario :
  dumps [(str "milk", [1; 2]%Z); (str "sugar", [2]%Z)] =
  jtext "{'milk': [1, 2], 'sugar': [2]}".
Proof. reflexivity. Qed.

Example loads_scenarios :
  loads (jtext " [1, -0, 2.5e3, true, null, {'k': [], 'k': 3}] ") =
    Ok (PyList [PyInt 1; PyInt 0; PyFloat (str "2.5e3"); PyBool true; PyNone;
                PyDict [(str "k", PyInt 3)]]) /\
  loads (jtext "[1,]") = Raise JSONDecodeError /\
  loads (jtext "{'a': 1} x") = Raise JSONDecodeError /\
  loads [] = Raise JSONDecodeError.
Proof. repeat split; vm_compute; reflexivity. Qed.


(** * Reading the documents *)

Ltac decide_by_computation := apply (bool_decide_unpack _); vm_compute; exact I.

(** ** [strip] *)

Lemma lstrip_spec s :
  exists ws, s = ws ++ lstrip s /\ Forall (fun c => isspace c = true) ws /\
             forall c, head (lstrip s) = Some c -> isspace c = false.
Proof.
  induction s as [|c s IH]; cbn [lstrip].
  - exists []. by repeat split.
  - destruct (isspace c) eqn:Hc.
    + destruct IH as (ws & Heq & Hws & Hhd). exists (c :: ws).
      repeat split; [by rewrite Heq at 1|by constructor|done].
    + exists []. repeat split; [done|]. intros c' [= <-]. done.
Qed.

Lemma rstrip_cons c s :
  rstrip (c :: s) =
  match rstrip s with [] => if isspace c then [] else [c] | r => c :: r end.
Proof. reflexivity. Qed.

Lemma rstrip_spec s :
  exists ws, s = rstrip s ++ ws /\ Forall (fun c => isspace c = true) ws /\
             forall c, last (rstrip s) = Some c -> isspace c = false.
Proof.
  induction s as [|c s IH].
  - exists []. by repeat split.
  - destruct IH as (ws & Heq & Hws & Hlast). rewrite rstrip_cons.
    destruct (rstrip s) as [|r0 r] eqn:Hr.
    + destruct (isspace c) eqn:Hc.
      * exists (c :: ws). cbn [app] in *. subst s.
        split; [done|]. split; [by constructor|done].
      * exists ws. cbn [app] in *. subst s.
        split; [done|]. split; [done|]. intros c' [= <-]. done.
    + exists ws. repeat split; [by rewrite Heq at 1|done|].
      intros c'. rewrite last_cons. destruct (last (r0 :: r)) eqn:Hl.
      * intros [= <-]. by apply Hlast.
      * by apply last_None in Hl.
Qed.

Lemma rstrip_fixed s :
  (forall c, last s = Some c -> isspace c = false) -> rstrip s = s.
Proof.
  induction s as [|c s IH]; [done|]. intros Hlast. rewrite rstrip_cons.
  destruct s as [|c' s'].
  - cbn. rewrite (Hlast c); done.
  - rewrite IH; [done|]. intros x Hx. apply Hlast. by rewrite last_cons, Hx.
Qed.

Lemma rstrip_spaces s ws :
  Forall (fun c => isspace c = true) ws -> rstrip (s ++ ws) = rstrip s.
Proof.
  intros Hws. induction s as [|c s IH].
  - cbn [app]. induction Hws as [|c ws Hc _ IH]; [done|].
    by rewrite rstrip_cons, IH, Hc.
  - cbn [app]. by rewrite !rstrip_cons, IH.
Qed.

Lemma strip_spec s :
  exists l r, s = l ++ strip s ++ r /\
    Forall (fun c => isspace c = true) l /\ Forall (fun c => isspace c = true) r /\
    (forall c, head (strip s) = Some c -> isspace c = false) /\
    (forall c, last (strip s) = Some c -> isspace c = false).
Proof.
  destruct (lstrip_spec s) as (l & Heq & Hl & Hhd).
  destruct (rstrip_spec (lstrip s)) as (r & Heq' & Hr & Hlast).
  exists l, r. unfold strip. repeat split; [|done|done| |done].
  - rewrite Heq at 1. by rewrite Heq' at 1.
  - intros c Hc. apply Hhd. rewrite Heq'. destruct (rstrip (lstrip s)); [done|].
    exact Hc.
Qed.

Lemma strip_fixed s :
  (forall c, head s = Some c -> isspace c = false) ->
  (forall c, last s = Some c -> isspace c = false) -> strip s = s.
Proof.
  intros Hhd Hlast. unfold strip.
  assert (lstrip s = s) as ->; [|by apply rstrip_fixed].
  destruct s as [|c s]; [done|]. cbn. by rewrite (Hhd c).
Qed.

Lemma lstrip_spaces ws : Forall (fun c => isspace c = true) ws -> lstrip ws = [].
Proof. induction 1 as [|c ws Hc _ IH]; [done|]. cbn [lstrip]. by rewrite Hc. Qed.

Lemma strip_app_spaces s ws :
  Forall (fun c => isspace c = true) ws -> strip (s ++ ws) = strip s.
Proof.
  intros Hws. unfold strip. induction s as [|c s IH]; cbn [app lstrip].
  - by rewrite lstrip_spaces.
  - destruct (isspace c); [done|].
    change (c :: s ++ ws) with ((c :: s) ++ ws). by rewrite rstrip_spaces.
Qed.

Lemma spaces_app_strip ws s :
  Forall (fun c => isspace c = true) ws -> strip (ws ++ s) = strip s.
Proof.
  intros Hws. unfold strip. induction Hws as [|c ws Hc _ IH]; [done|].
  cbn [app lstrip]. by rewrite Hc.
Qed.

Lemma strip_not_elem_of c s : (c ∉ s) -> c ∉ strip s.
Proof.
  intros Hs Hin. apply Hs. destruct (strip_spec s) as (l & r & Heq & _).
  rewrite Heq, !elem_of_app. tauto.
Qed.

(** ** [split] on a separator *)

Lemma split_on_length sep s field :
  length (split_on sep s field) = S (count_occ N.eq_dec s sep).
Proof.
  revert field. induction s as [|c s IH]; intros field; cbn [split_on]; [done|].
  destruct (N.eqb_spec c sep) as [->|Hne].
  - rewrite count_occ_cons_eq by done. cbn [length]. by rewrite IH.
  - rewrite count_occ_cons_neq by done. apply IH.
Qed.

Lemma split_on_plain sep s field :
  (sep ∉ s) -> split_on sep s field = [field ++ s].
Proof.
  revert field. induction s as [|c s IH]; intros field Hs; cbn [split_on].
  - by rewrite app_nil_r.
  - apply not_elem_of_cons in Hs as [Hc Hs].
    destruct (N.eqb_spec c sep) as [->|_]; [done|].
    rewrite IH by done. by rewrite <- app_assoc.
Qed.

Lemma split_on_app sep a b field :
  (sep ∉ a) -> split_on sep (a ++ sep :: b) field = (field ++ a) :: split_on sep b [].
Proof.
  revert field. induction a as [|c a IH]; intros field Ha; cbn [split_on app].
  - by rewrite N.eqb_refl, app_nil_r.
  - apply not_elem_of_cons in Ha as [Hc Ha].
    destruct (N.eqb_spec c sep) as [->|_]; [done|].
    rewrite IH by done. by rewrite <- app_assoc.
Qed.

Lemma split_on_two sep s a b :
  split_on sep s [] = [a; b] -> s = a ++ sep :: b /\ (sep ∉ a) /\ (sep ∉ b).
Proof.
  assert (forall s field a b, (sep ∉ field) -> split_on sep s field = [a; b] ->
            field ++ s = a ++ sep :: b /\ (sep ∉ a) /\ sep ∉ b) as Hgen.
  { clear. intros s. induction s as [|c s IH]; intros field a b Hf; cbn [split_on]; [done|].
    destruct (N.eqb_spec c sep) as [->|Hne].
    - intros [= <- Hrest].
      destruct (decide (sep ∈ s)) as [Hin|Hnot].
      + apply list_elem_of_split in Hin as (s1 & s2 & ->).
        pose proof (split_on_length sep (s1 ++ sep :: s2) []) as Hlen.
        rewrite Hrest, count_occ_app, count_occ_cons_eq in Hlen by done.
        cbn [length] in Hlen. lia.
      + rewrite split_on_plain in Hrest by done. by injection Hrest as <-.
    - intros Hrest. apply IH in Hrest.
      + by rewrite <- app_assoc in Hrest.
      + rewrite not_elem_of_app, not_elem_of_cons.
        split; [done|]. split; [congruence|apply not_elem_of_nil]. }
  intros Hs. apply (Hgen s [] a b); [apply not_elem_of_nil|done].
Qed.

(** ** The lines of a text *)

Lemma lines_of_app body rest line :
  (10 ∉ body) ->
  lines_of (body ++ 10 :: rest) line = (line ++ body ++ [10]) :: lines_of rest [].
Proof.
  revert line. induction body as [|c body IH]; intros line Hb; cbn [lines_of app].
  - done.
  - apply not_elem_of_cons in Hb as [Hc Hb].
    destruct (N.eqb_spec c 10) as [->|_]; [done|].
    rewrite IH by done. by rewrite <- app_assoc.
Qed.

Lemma lines_of_Forall (P : N -> Prop) text line :
  Forall P text -> Forall P line -> Forall (Forall P) (lines_of text line).
Proof.
  intros Htext. revert line. induction Htext as [|c text Hc _ IH]; intros line Hline.
  - cbn [lines_of]. destruct line; [constructor|constructor; [done|constructor]].
  - assert (Forall P (line ++ [c])).
    { apply Forall_app. split; [done|]. constructor; [done|constructor]. }
    cbn [lines_of]. destruct (c =? 10); [constructor; [done|apply IH; constructor]|by apply IH].
Qed.

Lemma lines_of_spec text line :
  (10 ∉ line) ->
  Forall (fun l => exists body, (10 ∉ body) /\ (l = body ++ [10] \/ l = body))
    (lines_of text line).
Proof.
  revert line. induction text as [|c text IH]; intros line Hl; cbn [lines_of].
  - destruct line; [constructor|]. repeat constructor. eexists. split; [done|by right].
  - destruct (N.eqb_spec c 10) as [->|Hne].
    + constructor; [by exists line; split; [|left]|]. apply IH, not_elem_of_nil.
    + apply IH. rewrite not_elem_of_app, not_elem_of_cons.
      split; [done|]. split; [congruence|apply not_elem_of_nil].
Qed.

Lemma last_line_feed (body x y : pystr) :
  (10 ∉ body) -> body ++ [10] = x ++ 10 :: y -> y = [].
Proof.
  revert x. induction body as [|c body IH]; intros x Hb; cbn [app].
  - destruct x as [|? [|? ?]]; cbn; intros [= ]; by subst.
  - apply not_elem_of_cons in Hb as [Hc Hb].
    destruct x as [|c' x]; cbn [app]; intros [= ]; [by subst|]. eauto.
Qed.

Lemma strip_no_line_feed line body :
  (10 ∉ body) -> line = body ++ [10] \/ line = body -> (10 ∉ strip line).
Proof.
  intros Hb Hline Hin.
  destruct (strip_spec line) as (l & r & Heq & _ & _ & _ & Hlast).
  apply list_elem_of_split in Hin as (m1 & m2 & Hm). rewrite Hm in Heq, Hlast.
  destruct Hline as [->| ->].
  - assert (m2 ++ r = []) as Hnil.
    { apply (last_line_feed body (l ++ m1)); [done|].
      rewrite Heq. by rewrite <- !app_assoc. }
    apply app_eq_nil in Hnil as [-> ->].
    specialize (Hlast 10). rewrite last_snoc in Hlast. by specialize (Hlast eq_refl).
  - apply Hb. rewrite Heq. rewrite !elem_of_app, elem_of_cons. tauto.
Qed.

(** ** The translation of line endings *)

Lemma translate_newlines_no_cr after_cr s : 13 ∉ translate_newlines after_cr s.
Proof.
  revert after_cr. induction s as [|c s IH]; intros after_cr; cbn [translate_newlines].
  - apply not_elem_of_nil.
  - destruct (N.eqb_spec c 13) as [->|Hne].
    + rewrite not_elem_of_cons. split; [done|apply IH].
    + destruct (_ && _); [apply IH|]. rewrite not_elem_of_cons. split; [congruence|apply IH].
Qed.

Lemma translate_newlines_fixed s : (13 ∉ s) -> translate_newlines false s = s.
Proof.
  induction s as [|c s IH]; [done|]. intros [Hc Hs]%not_elem_of_cons.
  cbn [translate_newlines]. rewrite (proj2 (N.eqb_neq c 13)) by congruence.
  rewrite andb_false_r. by rewrite IH.
Qed.

Lemma translate_newlines_Forall (P : N -> Prop) after_cr s :
  P 10 -> Forall P s -> Forall P (translate_newlines after_cr s).
Proof.
  intros H10 Hs. revert after_cr.
  induction Hs as [|c s Hc _ IH]; intros after_cr; cbn [translate_newlines]; [constructor|].
  destruct (c =? 13); [by constructor|]. destruct (_ && _); [done|by constructor].
Qed.


(** ** [load_documents] *)

Section DocumentFacts.
Context `{Builtins}.

Lemma parse_line_Done line z text :
  parse_line line = Done (z, text) ->
  exists doc_id, strip line = doc_id ++ 9 :: text /\ (9 ∉ doc_id) /\ (9 ∉ text) /\
                 py_int doc_id = Some z.
Proof.
  unfold parse_line.
  destruct (split_on 9 (strip line) []) as [|doc_id [|text' [|? ?]]] eqn:Hsplit; try done.
  destruct (py_int doc_id) as [z'|] eqn:Hint; [|done]. intros [= <- <-].
  apply split_on_two in Hsplit as (Heq & Ha & Hb). by exists doc_id.
Qed.

Lemma parse_line_Failed line e : parse_line line = Failed e -> e = ValueError.
Proof.
  unfold parse_line.
  destruct (split_on 9 (strip line) []) as [|doc_id [|text' [|? ?]]]; try by intros [= <-].
  destruct (py_int doc_id); [done|by intros [= <-]].
Qed.

Lemma parse_line_tabs line :
  tabs (strip line) <> 1%nat -> parse_line line = Failed ValueError.
Proof.
  intros Htabs. unfold parse_line.
  pose proof (split_on_length 9 (strip line) []) as Hlen. unfold tabs in Htabs.
  destruct (split_on 9 (strip line) []) as [|doc_id [|text' [|? ?]]]; try done.
  cbn [length] in Hlen. lia.
Qed.

Lemma parse_line_record (record : Z * pystr) :
  clean_text record.2 -> py_int (int_repr record.1) = Some record.1 ->
  parse_line (dataset_line record) = Done record.
Proof.
  destruct record as [doc_id text]. cbn [fst snd].
  intros (Hne & Htab & Hlf & Hcr & Hlast) Hint.
  pose proof (int_repr_printable doc_id) as Hprint.
  assert (strip (dataset_line (doc_id, text)) = int_repr doc_id ++ 9 :: text) as Hstrip.
  { unfold dataset_line. cbn [fst snd].
    change (int_repr doc_id ++ [9] ++ text ++ [10])
      with (int_repr doc_id ++ 9 :: (text ++ [10])).
    rewrite (app_comm_cons text [10] 9), app_assoc.
    rewrite strip_app_spaces by (by repeat constructor).
    apply strip_fixed.
    - destruct (int_repr_head doc_id) as (d & ds & -> & Hd). intros c [= <-].
      destruct Hd as [->|Hd]; [done|]. unfold isspace.
      repeat (apply orb_false_intro); try (apply andb_false_intro1, N.leb_gt; lia);
        try (apply andb_false_intro2, N.leb_gt; lia); apply N.eqb_neq; lia.
    - intros c. rewrite last_app. destruct text as [|t text]; [done|].
      rewrite last_cons.
      destruct (last (t :: text)) as [c'|] eqn:Hl; [|by apply last_None in Hl].
      cbn. intros [= <-]. by apply Hlast. }
  unfold parse_line. rewrite Hstrip, split_on_app.
  - rewrite split_on_plain by done. cbn [app]. by rewrite Hint.
  - intros Hin. eapply Forall_forall in Hprint; [|exact Hin]. unfold printable in Hprint. lia.
Qed.

Lemma parse_line_record_line line :
  (exists record, parse_line line = Done record) <-> record_line line.
Proof.
  split.
  - intros [[z text] (doc_id & Heq & Hid & Htext & Hint)%parse_line_Done].
    exists doc_id, text. by rewrite Hint.
  - intros (doc_id & text & Heq & Hid & Htext & [z Hint]). exists (z, text).
    unfold parse_line. cbn [app] in Heq. rewrite Heq, split_on_app by done.
    rewrite split_on_plain by done. cbn [app]. by rewrite Hint.
Qed.

Lemma load_lines_Failed lines documents e :
  load_lines lines documents = Failed e -> e = ValueError.
Proof.
  revert documents. induction lines as [|line lines IH]; intros documents; [done|].
  cbn [load_lines]. destruct (parse_line line) as [[z text]|e'] eqn:Hline; cbn.
  - apply IH.
  - intros [= <-]. by apply parse_line_Failed in Hline.
Qed.

Lemma load_lines_rejects lines documents line :
  line ∈ lines -> parse_line line = Failed ValueError ->
  load_lines lines documents = Failed ValueError.
Proof.
  intros Hin Hline. revert documents.
  induction lines as [|l lines IH]; intros documents; [by apply elem_of_nil in Hin|].
  cbn [load_lines]. destruct (parse_line l) as [[z text]|e] eqn:Hl; cbn.
  - apply elem_of_cons in Hin as [->|Hin]; [congruence|]. by apply IH.
  - by apply parse_line_Failed in Hl as ->.
Qed.

Lemma strip_record_tabs doc_id ws :
  (9 ∉ doc_id) -> Forall (fun c => isspace c = true) ws ->
  tabs (strip (doc_id ++ ws)) = 0%nat.
Proof.
  intros Hid Hws. rewrite strip_app_spaces by done. unfold tabs.
  apply count_occ_not_In. rewrite <- list_elem_of_In. by apply strip_not_elem_of.
Qed.

Lemma lines_of_dataset records :
  Forall (fun record => 10 ∉ record.2) records ->
  lines_of (dataset_text records) [] = dataset_line <$> records.
Proof.
  induction 1 as [|[doc_id text] records Htext _ IH]; [done|].
  unfold dataset_text. rewrite bind_cons, fmap_cons. fold (dataset_text records).
  unfold dataset_line at 1. cbn [fst snd] in *.
  change (int_repr doc_id ++ [9] ++ text ++ [10])
    with (int_repr doc_id ++ 9 :: (text ++ [10])).
  rewrite (app_comm_cons text [10] 9), app_assoc, <- app_assoc. cbn [app].
  rewrite lines_of_app, IH.
  - cbn [app]. unfold dataset_line. cbn [fst snd]. f_equal.
    by rewrite <- app_assoc.
  - rewrite not_elem_of_app, not_elem_of_cons. split; [|split; [done|done]].
    intros Hin. pose proof (int_repr_printable doc_id) as Hprint.
    eapply Forall_forall in Hprint; [|exact Hin]. unfold printable in Hprint. lia.
Qed.

Lemma dataset_text_no_cr records :
  Forall (fun record => 13 ∉ record.2) records -> 13 ∉ dataset_text records.
Proof.
  induction 1 as [|[doc_id text] records Htext _ IH]; [apply not_elem_of_nil|].
  unfold dataset_text. rewrite bind_cons. fold (dataset_text records).
  unfold dataset_line. cbn [fst snd] in *.
  rewrite !not_elem_of_app, !not_elem_of_cons. repeat split; try done.
  - intros Hin. pose proof (int_repr_printable doc_id) as Hprint.
    eapply Forall_forall in Hprint; [|exact Hin]. unfold printable in Hprint. lia.
  - apply not_elem_of_nil.
  - apply not_elem_of_nil.
Qed.

Lemma readlines_dataset records :
  Forall (fun record => clean_text record.2) records ->
  readlines (dataset_text records) = dataset_line <$> records.
Proof.
  intros Hrecords. unfold readlines. rewrite translate_newlines_fixed.
  - apply lines_of_dataset. eapply Forall_impl; [exact Hrecords|].
    by intros record (_ & _ & Hlf & _).
  - apply dataset_text_no_cr. eapply Forall_impl; [exact Hrecords|].
    by intros record (_ & _ & _ & Hcr & _).
Qed.

Lemma readlines_spec text :
  Forall (fun l => (13 ∉ l) /\ exists body, (10 ∉ body) /\ (l = body ++ [10] \/ l = body))
    (readlines text).
Proof.
  unfold readlines. apply Forall_and. split.
  - eapply Forall_impl.
    + apply (lines_of_Forall (fun c => c <> 13)); [|constructor].
      apply Forall_forall. intros c Hc ->. by eapply translate_newlines_no_cr.
    + intros l Hl Hin. by eapply Forall_forall in Hl.
  - apply lines_of_spec, not_elem_of_nil.
Qed.

Lemma load_lines_dataset records documents :
  Forall (fun record => clean_text record.2 /\ py_int (int_repr record.1) = Some record.1)
    records ->
  load_lines (dataset_line <$> records) documents =
  Done (foldl (fun documents record => dict_setitem record.1 record.2 documents)
          documents records).
Proof.
  intros Hrecords. revert documents.
  induction Hrecords as [|record records [Hclean Hint] _ IH]; intros documents; [done|].
  rewrite fmap_cons. cbn [load_lines foldl]. rewrite parse_line_record by done.
  destruct record as [doc_id text]. cbn. apply IH.
Qed.

Lemma parse_line_clean line body z text :
  (13 ∉ line) -> (10 ∉ body) -> line = body ++ [10] \/ line = body ->
  parse_line line = Done (z, text) -> clean_text text.
Proof.
  intros Hcr Hbody Hline (doc_id & Heq & _ & Htab & _)%parse_line_Done.
  pose proof (strip_no_line_feed line body Hbody Hline) as Hlf.
  apply (strip_not_elem_of 13) in Hcr.
  destruct (strip_spec line) as (_ & _ & _ & _ & _ & _ & Hlast).
  rewrite Heq in Hlf, Hlast, Hcr.
  assert (forall c, last (9 :: text) = Some c -> isspace c = false) as Hlast'.
  { intros c Hc. apply Hlast. rewrite last_app, Hc. done. }
  repeat split.
  - intros ->. by specialize (Hlast' 9 eq_refl).
  - done.
  - intros Hin. apply Hlf. rewrite elem_of_app, elem_of_cons. tauto.
  - intros Hin. apply Hcr. rewrite elem_of_app, elem_of_cons. tauto.
  - intros c Hc. apply Hlast'. rewrite last_cons, Hc. done.
Qed.

Lemma load_lines_invariant lines documents documents' :
  Forall (fun l => (13 ∉ l) /\ exists body, (10 ∉ body) /\ (l = body ++ [10] \/ l = body))
    lines ->
  load_lines lines documents = Done documents' ->
  dict_wf documents -> Forall (fun document => clean_text document.2) documents ->
  dict_wf documents' /\ Forall (fun document => clean_text document.2) documents'.
Proof.
  intros Hlines. revert documents.
  induction Hlines as [|line lines (Hcr & body & Hbody & Hline) _ IH]; intros documents.
  - by intros [= <-].
  - cbn [load_lines]. destruct (parse_line line) as [[z text]|] eqn:Hparse; [|done].
    cbn. intros Hrest Hwf Hclean. apply (IH _ Hrest).
    + by apply dict_setitem_wf.
    + apply dict_setitem_Forall; [|done]. intros k. cbn.
      by apply (parse_line_clean line body z).
Qed.

End DocumentFacts.

Lemma decimal_int_repr z : decimal_int (int_repr z) = Some z.
Proof.
  assert (forall p negative,
    match chars_of_uint (Pos.to_uint p) with
    | [] => None
    | _ => if forallb is_digit (chars_of_uint (Pos.to_uint p))
           then Some (int_of_literal negative (chars_of_uint (Pos.to_uint p))) else None
    end = Some (if negative then Z.neg p else Z.pos p)) as Hdigits.
  { intros p negative. destruct (to_uint_head p) as (d & ds & Heq & _).
    pose proof (chars_of_uint_digits (Pos.to_uint p)) as Hd.
    assert (forallb is_digit (chars_of_uint (Pos.to_uint p)) = true) as ->.
    { apply forallb_forall. intros c Hc%list_elem_of_In.
      by eapply Forall_forall in Hd. }
    unfold int_of_literal. rewrite uint_of_digits_chars.
    change (N.of_uint (Pos.to_uint p)) with (Pos.of_uint (Pos.to_uint p)).
    rewrite DecimalPos.Unsigned.of_to, Heq. by destruct negative. }
  unfold decimal_int. destruct z as [|p|p]; cbn [int_repr].
  - reflexivity.
  - destruct (to_uint_head p) as (d & ds & Heq & Hd).
    assert (scan_sign (chars_of_uint (Pos.to_uint p)) = (false, chars_of_uint (Pos.to_uint p)))
      as ->.
    { rewrite Heq. cbn [scan_sign]. by rewrite (proj2 (N.eqb_neq d 45)) by lia. }
    apply (Hdigits p false).
  - cbn [scan_sign]. rewrite N.eqb_refl. apply (Hdigits p true).
Qed.

Lemma documents_of_lookup (records : list (Z * pystr)) (documents : dict Z pystr) doc_id :
  dict_lookup doc_id
    (foldl (fun documents record => dict_setitem record.1 record.2 documents)
       documents records) =
  match last (filter (fun record => record.1 = doc_id) records) with
  | Some record => Some record.2
  | None => dict_lookup doc_id documents
  end.
Proof.
  revert documents. induction records as [|[z text] records IH]; intros documents; [done|].
  cbn [foldl fst snd]. rewrite IH. destruct (decide (z = doc_id)) as [->|Hne].
  - rewrite filter_cons_True; [|done]. rewrite last_cons.
    destruct (last _); [done|]. by rewrite dict_lookup_setitem_eq.
  - rewrite filter_cons_False; [|done].
    destruct (last _); [done|]. by rewrite dict_lookup_setitem_ne.
Qed.

(** ** [split] after [strip] *)

Lemma split_run_spaces ws s :
  Forall (fun c => isspace c = true) ws -> split_run (ws ++ s) [] = split_run s [].
Proof. induction 1 as [|c ws Hc _ IH]; [done|]. cbn [app split_run]. by rewrite Hc. Qed.

Lemma split_run_app_spaces s ws word :
  Forall (fun c => isspace c = true) ws -> split_run (s ++ ws) word = split_run s word.
Proof.
  intros Hws. revert word. induction s as [|c s IH]; intros word; cbn [app split_run].
  - revert word. induction Hws as [|c ws Hc _ IH]; intros word; [done|].
    cbn [split_run]. rewrite Hc, (IH []). by destruct word.
  - by rewrite !IH.
Qed.

Lemma split_strip s : split (strip s) = split s.
Proof.
  destruct (strip_spec s) as (l & r & Heq & Hl & Hr & _). unfold split.
  rewrite Heq at 2. by rewrite split_run_spaces, split_run_app_spaces.
Qed.

(** ** The properties of [load_documents] *)

(** X1.  Which files [load_documents] accepts.  It returns a mapping
    exactly when every line of the file, stripped of the whitespace around
    it, consists of two fields separated by its only tab, the first of which
    [int] accepts; on every other file it raises [ValueError]. *)
Theorem load_documents_accepts `{Builtins} (filepath : pystr) (files : gmap pystr pystr)
    (text : pystr) :
  files !! filepath = Some text ->
  ((exists documents, load_documents filepath files = Done documents) <->
   Forall record_line (readlines text)) /\
  (forall e, load_documents filepath files = Failed e -> e = ValueError).
Proof.
  intros Hfile. unfold load_documents. rewrite Hfile. split; [|apply load_lines_Failed].
  generalize (readlines text). intros lines. generalize (@nil (Z * pystr)).
  induction lines as [|line lines IH]; intros documents; cbn [load_lines].
  - split; [constructor|by eexists].
  - rewrite Forall_cons, <- (parse_line_record_line line).
    destruct (parse_line line) as [[z text']|e]; cbn.
    + rewrite IH. split; [|tauto]. intros Hlines. split; [by eexists|done].
    + split; [by intros [? ?]|by intros [[? ?] _]].
Qed.

Lemma load_documents_accepts_witness :
  ((exists documents,
      load_documents (H := plain_builtins) (str "docs.txt")
        {[ str "docs.txt" := str "1" ++ [9] ++ str "milk" ++ [10] ++
                             str "2" ++ [9] ++ str "tea" ++ [9] ++ str "sugar" ++ [10] ]} =
      Done documents) <->
   Forall (record_line (H := plain_builtins))
     (readlines (str "1" ++ [9] ++ str "milk" ++ [10] ++
                 str "2" ++ [9] ++ str "tea" ++ [9] ++ str "sugar" ++ [10]))) /\
  (forall e,
     load_documents (H := plain_builtins) (str "docs.txt")
       {[ str "docs.txt" := str "1" ++ [9] ++ str "milk" ++ [10] ++
                            str "2" ++ [9] ++ str "tea" ++ [9] ++ str "sugar" ++ [10] ]} =
     Failed e -> e = ValueError).
Proof.
  apply (load_documents_accepts (H := plain_builtins) (str "docs.txt")).
  reflexivity.
Defined.

(** X2.  A line that has no tab before its trailing whitespace makes
    [load_documents] raise [ValueError]: a blank line, a line without a tab,
    and a record whose text is empty or only whitespace, since [strip] takes
    the tab away with the whitespace after it. *)
Theorem load_documents_rejects_empty_text `{Builtins} (filepath : pystr)
    (files : gmap pystr pystr) (text doc_id ws : pystr) :
  files !! filepath = Some text -> doc_id ++ ws ∈ readlines text ->
  (9 ∉ doc_id) -> Forall (fun c => isspace c = true) ws ->
  load_documents filepath files = Failed ValueError.
Proof.
  intros Hfile Hline Hid Hws. unfold load_documents. rewrite Hfile.
  apply (load_lines_rejects _ _ (doc_id ++ ws)); [done|].
  apply parse_line_tabs. by rewrite strip_record_tabs.
Qed.

Lemma load_documents_rejects_empty_text_witness :
  load_documents (H := plain_builtins) (str "docs.txt")
    {[ str "docs.txt" := str "1" ++ [9] ++ str "milk" ++ [10] ++
                         str "2" ++ [9; 32; 10] ]} =
  Failed ValueError.
Proof.
  apply (load_documents_rejects_empty_text (H := plain_builtins) (str "docs.txt") _
           (str "1" ++ [9] ++ str "milk" ++ [10] ++ str "2" ++ [9; 32; 10])
           (str "2") [9; 32; 10]).
  - reflexivity.
  - decide_by_computation.
  - decide_by_computation.
  - by repeat constructor.
Defined.

(** X3.  What [load_documents] returns: the identifiers are pairwise
    distinct, and every text is non-empty, holds no tab, line feed or
    carriage return, and does not end in whitespace. *)
Theorem load_documents_clean `{Builtins} (filepath : pystr) (files : gmap pystr pystr)
    (documents : dict Z pystr) :
  load_documents filepath files = Done documents ->
  dict_wf documents /\ Forall (fun document => clean_text document.2) documents.
Proof.
  unfold load_documents. destruct (files !! filepath) as [text|]; [|done].
  intros Hload. eapply load_lines_invariant; [|exact Hload| |].
  - apply readlines_spec.
  - apply NoDup_nil_2.
  - constructor.
Qed.

Lemma load_documents_clean_witness :
  dict_wf [(1%Z, str "tea"); (2%Z, str "  milk")] /\
  Forall (fun document : Z * pystr => clean_text document.2)
    [(1%Z, str "tea"); (2%Z, str "  milk")].
Proof.
  apply (load_documents_clean (H := plain_builtins) (str "docs.txt")
           {[ str "docs.txt" := str "1" ++ [9] ++ str "water" ++ [13; 10] ++
                                str "2" ++ [9] ++ str "  milk " ++ [10] ++
                                str "1" ++ [9] ++ str "tea" ]}).
  reflexivity.
Defined.

(** X4.  Reading back a file of records.  For records whose texts are
    non-empty, without tab, line feed and carriage return, and not ending in
    whitespace, and whose identifiers [int] reads back from their decimal
    form, [load_documents] on the file with one line per record (identifier,
    tab, text, line feed) returns the mapping built by assigning the records
    in order: an identifier maps to the text of its last record. *)
Theorem load_documents_dataset `{Builtins} (filepath : pystr) (files : gmap pystr pystr)
    (records : list (Z * pystr)) :
  files !! filepath = Some (dataset_text records) ->
  Forall (fun record => clean_text record.2 /\ py_int (int_repr record.1) = Some record.1)
    records ->
  load_documents filepath files = Done (documents_of records) /\
  forall doc_id,
    dict_lookup doc_id (documents_of records) =
    snd <$> last (filter (fun record => record.1 = doc_id) records).
Proof.
  intros Hfile Hrecords. split.
  - unfold load_documents. rewrite Hfile, readlines_dataset.
    + by apply load_lines_dataset.
    + eapply Forall_impl; [exact Hrecords|]. by intros record [? _].
  - intros doc_id. unfold documents_of. rewrite documents_of_lookup.
    by destruct (last _).
Qed.

Lemma clean_text_milk_water : clean_text (str "milk water").
Proof.
  split; [done|]. repeat split; try decide_by_computation.
  by intros c [= <-].
Qed.

Lemma clean_text_tea : clean_text (str "tea").
Proof.
  split; [done|]. repeat split; try decide_by_computation.
  by intros c [= <-].
Qed.

Lemma load_documents_dataset_witness :
  load_documents (H := plain_builtins) (str "docs.txt")
    {[ str "docs.txt" :=
         dataset_text [(1%Z, str "milk water"); (2%Z, str "tea"); (1%Z, str "tea")] ]} =
    Done (documents_of [(1%Z, str "milk water"); (2%Z, str "tea"); (1%Z, str "tea")]) /\
  forall doc_id,
    dict_lookup doc_id
      (documents_of [(1%Z, str "milk water"); (2%Z, str "tea"); (1%Z, str "tea")]) =
    snd <$> last (filter (fun record : Z * pystr => record.1 = doc_id)
                    [(1%Z, str "milk water"); (2%Z, str "tea"); (1%Z, str "tea")]).
Proof.
  apply (load_documents_dataset (H := plain_builtins)).
  - reflexivity.
  - repeat constructor; first [apply clean_text_milk_water | apply clean_text_tea].
Defined.

(** * The built index and queries on a loaded object *)

(** ** The order of the keys *)

Lemma keys_setitem {V} (k : pystr) (v : V) (d : dict pystr V) :
  keys (dict_setitem k v d) = if decide (k ∈ keys d) then keys d else keys d ++ [k].
Proof.
  unfold keys. induction d as [|[k' v'] d IH]; cbn [dict_setitem fmap list_fmap fst].
  - rewrite decide_False; [done|apply not_elem_of_nil].
  - destruct (decide (k = k')) as [->|Hne]; cbn [fmap list_fmap fst].
    + rewrite decide_True; [done|apply list_elem_of_here].
    + fold (fmap (M:=list) (@fst pystr V)). rewrite IH.
      destruct (decide (k ∈ fst <$> d)) as [Hin|Hnot].
      * rewrite decide_True; [done|by apply list_elem_of_further].
      * rewrite decide_False; [done|]. rewrite not_elem_of_cons. done.
Qed.

Lemma first_occurrences_filter (P : pystr -> Prop) `{forall x, Decision (P x)} l :
  first_occurrences (filter P l) = filter P (first_occurrences l).
Proof.
  induction l as [|x l IH]; [done|]. cbn [first_occurrences].
  destruct (decide (P x)) as [HP|HP].
  - rewrite !filter_cons_True by done. cbn [first_occurrences]. rewrite IH.
    f_equal. rewrite !list_filter_filter. apply list_filter_iff. intros y. cbn. tauto.
  - rewrite !filter_cons_False by done. rewrite IH, list_filter_filter.
    apply list_filter_iff. intros y. cbn. split; [|tauto]. intros Hy. split; [done|].
    by intros ->.
Qed.

Lemma elem_of_first_occurrences x l : x ∈ first_occurrences l <-> x ∈ l.
Proof.
  induction l as [|y l IH]; [done|]. cbn [first_occurrences].
  rewrite !elem_of_cons, list_elem_of_filter, IH.
  destruct (decide (x = y)); tauto.
Qed.

Lemma NoDup_first_occurrences l : NoDup (first_occurrences l).
Proof.
  induction l as [|y l IH]; [constructor|]. cbn [first_occurrences].
  constructor; [|by apply NoDup_filter].
  rewrite list_elem_of_filter. tauto.
Qed.

Lemma foldl_add_key ks l :
  foldl add_key ks l = ks ++ first_occurrences (filter (fun k => k ∉ ks) l).
Proof.
  revert ks. induction l as [|x l IH]; intros ks; cbn [foldl].
  - by rewrite app_nil_r.
  - rewrite IH. unfold add_key. destruct (decide (x ∈ ks)) as [Hin|Hnot].
    + rewrite filter_cons_False; [done|tauto].
    + rewrite filter_cons_True by done. cbn [first_occurrences].
      rewrite <- app_assoc. cbn [app]. do 2 f_equal.
      rewrite <- first_occurrences_filter. f_equal.
      rewrite list_filter_filter. apply list_filter_iff. intros y. cbn.
      rewrite not_elem_of_app, not_elem_of_cons. split; [tauto|].
      intros [? ?]. split; [done|]. split; [done|apply not_elem_of_nil].
Qed.

Section KeyFacts.
Context `{UnicodeData}.

Lemma index_words_keys doc_id cleaned_text d d' :
  index_words doc_id cleaned_text d = Ok d' -> keys d' = foldl add_key (keys d) cleaned_text.
Proof.
  revert d. induction cleaned_text as [|word rest IH]; intros d.
  - by intros [= <-].
  - rewrite index_words_step. intros Hd'%IH. rewrite Hd', keys_setitem. done.
Qed.

Lemma index_documents_keys documents d d' :
  index_documents documents d = Ok d' ->
  keys d' = foldl add_key (keys d) (documents ≫= fun document => tokenize document.2).
Proof.
  revert d. induction documents as [|[doc_id text] rest IH]; intros d.
  - by intros [= <-].
  - rewrite bind_cons, foldl_app. cbn [index_documents snd].
    destruct (index_words doc_id (tokenize text) d) as [d1|] eqn:Hd1; [|done].
    intros Hd'%IH. by rewrite Hd', (index_words_keys _ _ _ _ Hd1).
Qed.

Lemma build_keys documents idx :
  build_inverted_index documents = Ok idx ->
  keys (words_ids idx) =
  first_occurrences (documents ≫= fun document => tokenize document.2).
Proof.
  unfold build_inverted_index.
  destruct (index_documents documents []) as [d|] eqn:Hd; [|done].
  intros [= <-]. cbn [words_ids]. rewrite (index_documents_keys _ _ _ Hd), foldl_add_key.
  cbn [keys fmap list_fmap app]. f_equal.
  generalize (documents ≫= fun document => tokenize document.2). intros l.
  induction l as [|x l IH]; [done|].
  rewrite filter_cons_True; [by rewrite IH|apply not_elem_of_nil].
Qed.

Lemma build_keys_Forall (P : N -> Prop) documents idx :
  (forall text, Forall P text -> Forall P (lower text)) ->
  build_inverted_index documents = Ok idx ->
  Forall (fun document => Forall P document.2) documents ->
  Forall (Forall P) (keys (words_ids idx)).
Proof.
  intros Hlower Hidx Hdocs. rewrite (build_keys _ _ Hidx). apply Forall_forall. intros k.
  rewrite elem_of_first_occurrences, list_elem_of_bind.
  intros ([doc_id text] & Hk & Hdoc). cbn [snd] in Hk.
  eapply Forall_forall in Hdocs; [|exact Hdoc]. cbn [snd] in Hdocs.
  apply Hlower in Hdocs. unfold tokenize, split in Hk. revert Hk.
  assert (Forall P []) as Hword by constructor. revert Hword.
  generalize (@nil N). induction Hdocs as [|c s Hc Hs IH]; intros word Hword; cbn [split_run].
  - destruct word; [by intros ?%elem_of_nil|]. by intros ->%list_elem_of_singleton.
  - destruct (isspace c).
    + destruct word; [by apply IH|]. intros [->|Hk]%elem_of_cons; [done|].
      revert Hk. by apply IH.
    + apply IH. apply Forall_app. by repeat constructor.
Qed.
End KeyFacts.

(** ** Queries on a loaded object *)

Lemma dict_lookup_py_of_index word (d : dict pystr (list Z)) :
  dict_lookup word (py_of_item <$> d) =
  (fun l => PyList (PyInt <$> l)) <$> dict_lookup word d.
Proof.
  induction d as [|[k l] d IH]; [done|]. rewrite fmap_cons.
  cbn [dict_lookup py_of_item fst snd].
  by destruct (decide (word = k)).
Qed.

Lemma query_object_loop_index (d : dict pystr (list Z)) words doc_indexes :
  query_object_loop (py_of_index d) (Word <$> words) doc_indexes =
  Ok (doc_indexes ++ (PyInt <$> spec_query d words)).
Proof.
  revert doc_indexes. induction words as [|word rest IH]; intros doc_indexes.
  - cbn. by rewrite app_nil_r.
  - rewrite fmap_cons. cbn [query_object_loop py_contains py_of_index py_getitem].
    unfold dict_contains. rewrite dict_lookup_py_of_index.
    unfold spec_query. rewrite bind_cons. fold (spec_query d rest).
    destruct (dict_lookup word d) as [l|]; cbn.
    + fold (py_of_index d). rewrite IH, fmap_app. by rewrite app_assoc.
    + fold (py_of_index d). by rewrite IH.
Qed.



Lemma spec_query_postings `{UnicodeData} documents idx words :
  build_inverted_index documents = Ok idx ->
  spec_query (words_ids idx) words = words ≫= spec_postings documents.
Proof.
  intros Hidx. destruct (build_inverted_index_spec documents) as (idx' & Hidx' & Hpost & _).
  rewrite Hidx in Hidx'. injection Hidx' as <-. unfold spec_query.
  induction words as [|word words IH]; [done|]. rewrite !bind_cons, IH. f_equal.
  apply Hpost.
Qed.

Lemma load_built `{UnicodeData} documents idx index files :
  build_inverted_index documents = Ok idx ->
  Forall json_safe (keys (words_ids idx)) ->
  load index (dump idx index files) = Ok (cls (py_of_index (words_ids idx))).
Proof.
  intros Hidx Hsafe. rewrite load_dump, loads_dumps; [done| |done].
  by eapply build_dict_wf.
Qed.

Lemma process_queries_index `{Builtins} (d : dict pystr (list Z)) queries stdout :
  Forall nonempty_query queries ->
  process_queries (cls (py_of_index d)) queries stdout =
  (Done (), stdout ++ (queries ≫= fun query =>
     [first_of query; join [44] (int_repr <$> spec_query d (terms_of query))])).
Proof.
  intros Hqueries. revert stdout.
  induction Hqueries as [|query queries Hquery _ IH]; intros stdout.
  - cbn. by rewrite app_nil_r.
  - rewrite bind_cons. cbn [process_queries].
    assert (first_item query = Done (first_of query)) as ->.
    { destruct query as [[|c s]|[|term terms]]; done. }
    assert (query_terms query = Word <$> terms_of query) as ->.
    { destruct query as [s|terms]; [|done]. cbn. by rewrite split_strip. }
    unfold query_object. cbn [loaded_words_ids]. rewrite query_object_loop_index.
    cbn [app]. rewrite IH, <- list_fmap_compose. cbn [app].
    by rewrite <- !app_assoc.
Qed.

(** ** The properties of the keys and of the queries *)



(** X6.  Building and then querying: for every document mapping and every
    list of terms, [query] on the built index returns, term after term, the
    identifier of each document once per occurrence of the term in its
    lowercased text, documents in mapping order. *)
Theorem query_after_build `{UnicodeData} (documents : dict Z pystr) (words : list pystr) :
  exists idx,
    build_inverted_index documents = Ok idx /\
    query idx words = Ok (words ≫= spec_postings documents).
Proof.
  destruct (build_inverted_index_spec documents) as (idx & Hidx & _).
  exists idx. split; [done|]. unfold query. rewrite query_loop_spec. cbn [app].
  by rewrite (spec_query_postings documents).
Qed.


(** X8.  [callback_query] with [-q] hands [query] the list of groups that
    the option collects, so each word is a list.  When the index file holds
    a JSON object, testing the first group against the dict raises
    [TypeError]: a list cannot be hashed. *)
Theorem callback_query_groups_raise (groups : list (list pystr)) (index text : pystr)
    (files : gmap pystr pystr) (d : dict pystr pyval) :
  files !! index = Some text -> loads text = Ok (PyDict d) -> groups <> [] ->
  callback_query (query_groups groups) index files = Raise TypeError.
Proof.
  intros Hfile Hloads Hgroups. unfold callback_query, load. rewrite Hfile, Hloads.
  by destruct groups.
Qed.

Lemma callback_query_groups_raise_witness :
  callback_query (query_groups [[str "milk"; str "water"]; [str "sugar"]])
    (str "inverted.index") {[ str "inverted.index" := jtext "{'milk': [1, 2]}" ]} =
  Raise TypeError.
Proof.
  apply (callback_query_groups_raise _ _ (jtext "{'milk': [1, 2]}") _
           [(str "milk", PyList [PyInt 1; PyInt 2])]).
  - reflexivity.
  - reflexivity.
  - done.
Defined.



(** X10.  [load] accepts a file that holds a number, a boolean or null;
    the error comes with the first query: every query of at least one word
    raises [TypeError], only the empty query returns the empty list. *)
Theorem callback_query_scalar_raises (query : list qword) (index text : pystr)
    (files : gmap pystr pystr) (v : pyval) :
  files !! index = Some text -> loads text = Ok v -> scalar v ->
  callback_query query index files =
  match query with [] => Ok [] | _ :: _ => Raise TypeError end.
Proof.
  intros Hfile Hloads Hv. unfold callback_query, load. rewrite Hfile, Hloads.
  destruct query as [|word rest]; [done|]. by destruct v.
Qed.

Lemma callback_query_scalar_raises_witness :
  callback_query [Word (str "milk")] (str "inverted.index")
    {[ str "inverted.index" := str "42" ]} = Raise TypeError.
Proof.
  apply (callback_query_scalar_raises [Word (str "milk")] _ (str "42") _ (PyInt 42)).
  - reflexivity.
  - reflexivity.
  - exact I.
Defined.

(** * The pipelines of the command line *)

(** ** Texts of one alphabet *)

Lemma strip_Forall (P : N -> Prop) s : Forall P s -> Forall P (strip s).
Proof.
  destruct (strip_spec s) as (l & r & Heq & _). rewrite Heq at 1.
  by intros [_ [? _]%Forall_app]%Forall_app.
Qed.

Section AlphabetFacts.
Context `{Builtins}.

Lemma parse_line_Forall (P : N -> Prop) line z text :
  Forall P line -> parse_line line = Done (z, text) -> Forall P text.
Proof.
  intros Hline%strip_Forall (doc_id & Heq & _)%parse_line_Done. rewrite Heq in Hline.
  apply Forall_app in Hline as [_ Htext]. by inversion Htext.
Qed.

Lemma load_lines_Forall (P : N -> Prop) lines documents documents' :
  Forall (Forall P) lines -> load_lines lines documents = Done documents' ->
  Forall (fun document => Forall P document.2) documents ->
  Forall (fun document => Forall P document.2) documents'.
Proof.
  intros Hlines. revert documents.
  induction Hlines as [|line lines Hline _ IH]; intros documents.
  - by intros [= <-].
  - cbn [load_lines]. destruct (parse_line line) as [[z text]|] eqn:Hparse; [|done].
    cbn. intros Hrest Hdocs. apply (IH _ Hrest).
    apply dict_setitem_Forall; [|done]. intros k. cbn.
    by apply (parse_line_Forall P line z).
Qed.

Lemma load_documents_Forall (P : N -> Prop) filepath files (text : pystr) documents :
  P 10 -> files !! filepath = Some text -> Forall P text ->
  load_documents filepath files = Done documents ->
  Forall (fun document => Forall P document.2) documents.
Proof.
  intros H10 Hfile Htext. unfold load_documents. rewrite Hfile. intros Hload.
  eapply load_lines_Forall; [|exact Hload|constructor].
  apply lines_of_Forall; [|constructor]. by apply translate_newlines_Forall.
Qed.
End AlphabetFacts.

Lemma lower_ascii_Forall `{UnicodeData} text :
  Forall (fun c => c < 128) text -> Forall (fun c => c < 128) (lower text).
Proof.
  intros Htext. rewrite lower_ascii by done. apply Forall_fmap.
  eapply Forall_impl; [exact Htext|]. intros c Hc. cbn. unfold ascii_tolower.
  destruct (_ && _) eqn:Hcase; [|done].
  apply andb_true_iff in Hcase as [_ ?%N.leb_le]. lia.
Qed.

Lemma ascii_json_safe k : Forall (fun c => c < 128) k -> json_safe k.
Proof.
  intros Hk. split.
  - eapply Forall_impl; [exact Hk|]. intros c Hc. unfold code_point. cbn beta in Hc. lia.
  - induction Hk as [|c k Hc _ IH]; [done|]. cbn [has_surrogate_pair].
    destruct k as [|c' k]; [done|]. rewrite IH, orb_false_r.
    apply andb_false_intro1. unfold is_high_surrogate.
    apply andb_false_intro1, N.leb_gt. lia.
Qed.

(** ** The properties of the pipelines *)

(** X11.  [process_build] on an ASCII file of documents that
    [load_documents] accepts: the build succeeds, the only file written is
    the output, and [load] on that file returns exactly the index built from
    the documents. *)
Theorem process_build_ascii_roundtrip `{Builtins} `{UnicodeData} (dataset output : pystr)
    (files : gmap pystr pystr) (text : pystr) (documents : dict Z pystr) :
  files !! dataset = Some text -> Forall (fun c => c < 128) text ->
  load_documents dataset files = Done documents ->
  exists idx,
    build_inverted_index documents = Ok idx /\
    process_build dataset output files = (Done (), dump idx output files) /\
    load output (dump idx output files) = Ok (cls (py_of_index (words_ids idx))).
Proof.
  intros Hfile Htext Hload.
  destruct (build_inverted_index_spec documents) as (idx & Hidx & _).
  exists idx. split; [done|]. split.
  - unfold process_build. by rewrite Hload, Hidx.
  - apply (load_built documents); [done|].
    eapply Forall_impl; [|apply ascii_json_safe].
    apply (build_keys_Forall _ documents); [apply lower_ascii_Forall|done|].
    by eapply (load_documents_Forall (fun c => c < 128)).
Qed.

Lemma process_build_ascii_roundtrip_witness :
  exists idx,
    build_inverted_index (H := ascii_data) [(1%Z, str "Milk water"); (2%Z, str "milk")] =
      Ok idx /\
    process_build (H := plain_builtins) (H0 := ascii_data)
      (str "docs.txt") (str "inverted.index")
      {[ str "docs.txt" := str "1" ++ [9] ++ str "Milk water" ++ [10] ++
                           str "2" ++ [9] ++ str "milk" ++ [10] ]} =
      (Done (), dump idx (str "inverted.index")
                  {[ str "docs.txt" := str "1" ++ [9] ++ str "Milk water" ++ [10] ++
                                       str "2" ++ [9] ++ str "milk" ++ [10] ]}) /\
    load (str "inverted.index")
      (dump idx (str "inverted.index")
         {[ str "docs.txt" := str "1" ++ [9] ++ str "Milk water" ++ [10] ++
                              str "2" ++ [9] ++ str "milk" ++ [10] ]}) =
      Ok (cls (py_of_index (words_ids idx))).
Proof.
  apply (process_build_ascii_roundtrip (H := plain_builtins) (H0 := ascii_data)
           (str "docs.txt") (str "inverted.index") _
           (str "1" ++ [9] ++ str "Milk water" ++ [10] ++
            str "2" ++ [9] ++ str "milk" ++ [10])).
  - reflexivity.
  - decide_by_computation.
  - reflexivity.
Defined.

(** X12.  [process_query] on the file of an index prints two strings for
    every query: its first element (the first character of a line, the first
    term of a group), then the identifiers [query] returns for its terms, in
    decimal and joined by commas.  The terms of a line are its words:
    stripping the line first changes nothing. *)
Theorem process_query_prints `{Builtins} (d : dict pystr (list Z)) (queries : list qword)
    (index : pystr) (files : gmap pystr pystr) :
  load index files = Ok (cls (py_of_index d)) ->
  Forall nonempty_query queries ->
  process_query queries index files =
  (Done (), queries ≫= fun query =>
     [first_of query; join [44] (int_repr <$> spec_query d (terms_of query))]).
Proof.
  intros Hload Hqueries. unfold process_query. rewrite Hload.
  by rewrite process_queries_index.
Qed.

Lemma process_query_prints_witness :
  process_query (H := plain_builtins)
    [Group [str "milk"; str "water"]; Word (str " tea milk" ++ [10])]
    (str "inverted.index")
    (dump (mkInvertedIndex [(str "milk", [1; 2]%Z); (str "water", [1]%Z)])
       (str "inverted.index") ∅) =
  (Done (), [str "milk"; str "1,2,1"; str " "; str "1,2"]).
Proof.
  apply (process_query_prints (H := plain_builtins)
           [(str "milk", [1; 2]%Z); (str "water", [1]%Z)]
           [Group [str "milk"; str "water"]; Word (str " tea milk" ++ [10])]).
  - reflexivity.
  - by repeat constructor.
Defined.

(** X13.  The two pipelines together: after [process_build] on an ASCII
    file of documents that [load_documents] accepts, [process_query] on the
    written index prints for every query its first element and then, joined
    by commas, the identifier of each document once per occurrence of each
    term of the query, and raises nothing. *)
Theorem process_query_after_build `{Builtins} `{UnicodeData} (dataset output : pystr)
    (files : gmap pystr pystr) (text : pystr) (documents : dict Z pystr)
    (queries : list qword) :
  files !! dataset = Some text -> Forall (fun c => c < 128) text ->
  load_documents dataset files = Done documents ->
  Forall nonempty_query queries ->
  process_query queries output (process_build dataset output files).2 =
  (Done (), queries ≫= fun query =>
     [first_of query;
      join [44] (int_repr <$> (terms_of query ≫= spec_postings documents))]).
Proof.
  intros Hfile Htext Hload Hqueries.
  destruct (build_inverted_index_spec documents) as (idx & Hidx & _).
  assert (Forall json_safe (keys (words_ids idx))) as Hsafe.
  { eapply Forall_impl; [|apply ascii_json_safe].
    apply (build_keys_Forall _ documents); [apply lower_ascii_Forall|done|].
    by eapply (load_documents_Forall (fun c => c < 128)). }
  unfold process_build, process_query. rewrite Hload, Hidx. cbn [snd].
  rewrite (load_built documents), process_queries_index by done. cbn [app].
  f_equal. induction queries as [|query queries IH]; [done|].
  inversion_clear Hqueries. rewrite !bind_cons, IH by done.
  by rewrite (spec_query_postings documents).
Qed.

Lemma process_query_after_build_witness :
  process_query (H := plain_builtins) [Group [str "milk"; str "water"]] (str "inverted.index")
    (process_build (H := plain_builtins) (H0 := ascii_data)
       (str "docs.txt") (str "inverted.index")
       {[ str "docs.txt" := str "1" ++ [9] ++ str "Milk water" ++ [10] ++
                            str "2" ++ [9] ++ str "milk" ++ [10] ]}).2 =
  (Done (),
   [Group [str "milk"; str "water"]] ≫= fun query =>
     [first_of query;
      join [44] (int_repr <$> (terms_of query ≫=
        spec_postings (H := ascii_data) [(1%Z, str "Milk water"); (2%Z, str "milk")]))]).
Proof.
  apply (process_query_after_build (H := plain_builtins) (H0 := ascii_data)
           (str "docs.txt") (str "inverted.index") _
           (str "1" ++ [9] ++ str "Milk water" ++ [10] ++
            str "2" ++ [9] ++ str "milk" ++ [10])).
  - reflexivity.
  - decide_by_computation.
  - reflexivity.
  - by repeat constructor.
Defined.

(** * More on the files and on the heap *)

(** ** The decoder builds dicts with distinct keys *)

Lemma parse_array_list fuel s rval v rest :
  parse_array fuel s rval = Ok (v, rest) -> exists l, v = PyList l.
Proof.
  revert s rval. induction fuel as [|fuel IH]; intros s rval; [done|].
  rewrite parse_array_S. destruct (scan_once fuel s) as [[val s1]|]; [|done]. cbn.
  destruct (skip_ws s1) as [|d s2]; [done|].
  destruct (d =? 93); [intros [= <- _]; by eexists|].
  destruct (d =? 44); [apply IH|done].
Qed.

Lemma parse_object_wf fuel s rval v rest :
  parse_object fuel s rval = Ok (v, rest) -> dict_wf rval ->
  exists d, v = PyDict d /\ dict_wf d.
Proof.
  revert s rval. induction fuel as [|fuel IH]; intros s rval; [done|].
  destruct s as [|c s1]; [done|]. rewrite parse_object_S.
  destruct (c =? 34); [|done].
  destruct (scanstring s1) as [[key s2]|]; [|done]. cbn.
  destruct (skip_ws s2) as [|colon s3]; [done|].
  destruct (colon =? 58); [|done].
  destruct (scan_once fuel (skip_ws s3)) as [[val s4]|]; [|done]. cbn.
  destruct (skip_ws s4) as [|d s5]; [done|].
  destruct (d =? 125).
  - intros [= <- _] Hwf. eexists. split; [done|]. by apply dict_setitem_wf.
  - destruct (d =? 44); [|done]. intros Hrest Hwf. apply (IH _ _ Hrest).
    by apply dict_setitem_wf.
Qed.

Lemma scan_once_dict_wf fuel s d rest :
  scan_once fuel s = Ok (PyDict d, rest) -> dict_wf d.
Proof.
  destruct fuel as [|fuel]; [done|]. destruct s as [|c s1]; [done|]. rewrite scan_once_S.
  destruct (c =? 34).
  { destruct (scanstring s1) as [[key r]|]; done. }
  destruct (c =? 123).
  { assert (dict_wf (K:=pystr) (V:=pyval) []) as Hnil by apply NoDup_nil_2.
    destruct (skip_ws s1) as [|c2 s2].
    - by intros (d' & [= <-] & Hwf)%parse_object_wf.
    - destruct (c2 =? 125); [by intros [= <- _]|].
      by intros (d' & [= <-] & Hwf)%parse_object_wf. }
  destruct (c =? 91).
  { destruct (skip_ws s1) as [|c2 s2].
    - by intros (l & [=])%parse_array_list.
    - destruct (c2 =? 93); [done|]. by intros (l & [=])%parse_array_list. }
  destruct (scan_constant (c :: s1)) as [[v r]|] eqn:Hconst.
  - intros [= -> ->]. revert Hconst. unfold scan_constant.
    repeat match goal with
           | |- context [if ?b then _ else _] => destruct b
           | |- context [strip_prefix ?w ?s] => destruct (strip_prefix w s)
           end; done.
  - unfold match_number. destruct (scan_sign (c :: s1)) as [negative s2].
    destruct (scan_integer s2) as [[digits s3]|]; [|done].
    destruct (scan_fraction s3) as [frac s4]. destruct (scan_exponent s4) as [exponent s5].
    by destruct frac, exponent.
Qed.

(** ** The properties *)

(** X14.  The file [dump] writes holds printable ASCII characters only,
    whatever code points the terms are made of. *)
Theorem dump_writes_printable_ascii (idx : InvertedIndex) (filepath : pystr)
    (files : gmap pystr pystr) :
  Forall (Forall code_point) (keys (words_ids idx)) ->
  exists text, dump idx filepath files !! filepath = Some text /\ Forall printable text.
Proof.
  intros Hkeys. exists (dumps (words_ids idx)). split.
  - unfold dump. apply lookup_insert_eq.
  - by apply dumps_printable.
Qed.

Lemma dump_writes_printable_ascii_witness :
  exists text,
    dump (mkInvertedIndex [([233; 128512; 10], [1]%Z)]) (str "inverted.index") ∅
      !! str "inverted.index" = Some text /\
    Forall printable text.
Proof.
  apply (dump_writes_printable_ascii (mkInvertedIndex [([233; 128512; 10], [1]%Z)])).
  decide_by_computation.
Defined.

(** X15.  When [load] returns a dict, its keys are pairwise distinct: of
    a key that the JSON object repeats, the decoder keeps one entry. *)
Theorem load_object_keys_distinct (filepath : pystr) (files : gmap pystr pystr)
    (d : dict pystr pyval) :
  load filepath files = Ok (cls (PyDict d)) -> dict_wf d.
Proof.
  unfold load. destruct (files !! filepath) as [text|]; [|done].
  unfold loads. destruct (startswith [65279] text); [done|].
  destruct (scan_once _ _) as [[v rest]|] eqn:Hscan; [|done]. cbn.
  destruct (skip_ws rest); [|done]. intros [= ->].
  by eapply scan_once_dict_wf.
Qed.

Lemma load_object_keys_distinct_witness :
  dict_wf [(str "milk", PyList [PyInt 2]); (str "tea", PyList [])].
Proof.
  apply (load_object_keys_distinct (str "inverted.index")
           {[ str "inverted.index" := jtext "{'milk': [1], 'tea': [], 'milk': [2]}" ]}).
  reflexivity.
Defined.

(** X16.  [dump] is injective: two indexes whose files have the same text
    are the same index, when their keys are distinct strings that the round
    trip keeps. *)
Theorem dumps_injective (d1 d2 : dict pystr (list Z)) :
  dict_wf d1 -> Forall json_safe (keys d1) ->
  dict_wf d2 -> Forall json_safe (keys d2) ->
  dumps d1 = dumps d2 -> d1 = d2.
Proof.
  intros Hwf1 Hsafe1 Hwf2 Hsafe2 Heq.
  pose proof (loads_dumps d1 Hwf1 Hsafe1) as H1.
  rewrite Heq, (loads_dumps d2 Hwf2 Hsafe2) in H1. injection H1 as H1.
  clear -H1. revert d1 H1. induction d2 as [|[k2 l2] d2 IH]; intros [|[k1 l1] d1]; try done.
  rewrite !fmap_cons. intros [= Hk Hl Hrest]. f_equal; [|by apply IH].
  f_equal; [done|]. clear -Hl. revert l1 Hl.
  induction l2 as [|z2 l2 IH]; intros [|z1 l1]; try done.
  rewrite !fmap_cons. intros [= -> Hrest]. f_equal. by apply IH.
Qed.

Lemma dumps_injective_witness :
  [(str "milk", [1; 2]%Z)] = [(str "milk", [1; 2]%Z)].
Proof.
  apply (dumps_injective [(str "milk", [1; 2]%Z)] [(str "milk", [1; 2]%Z)]);
    first [reflexivity | decide_by_computation].
Defined.

(** X17.  On a heap whose objects hold the index [d], [query] returns a
    list object that did not exist before the call, so it shares no storage
    with a stored posting list, and that holds the posting lists of the
    terms, concatenated in query order. *)
Theorem heap_query_returns_new_list (w : Heap.world) (self : Heap.loc)
    (d : dict pystr (list Z)) (words : list pystr) :
  Heap.represents w self d ->
  exists l w',
    Heap.query self words w = (Ok l, w') /\
    Heap.objects w !! l = None /\
    Heap.objects w' !! l = Some (Heap.List (spec_query d words)).
Proof.
  intros Hd. destruct (heap_query_refines w self d words Hd) as (l & w' & Hq & _ & Hl).
  exists l, w'. split; [done|]. split; [|done].
  revert Hq. unfold Heap.query, mbind, Heap.prog_bind, Heap.alloc. cbn.
  destruct (Heap.query_loop _ _ _ _) as [[[]|e] w1]; [|done]. intros [= <- _].
  apply not_elem_of_dom, is_fresh.
Qed.

Lemma heap_query_returns_new_list_witness :
  let w := Heap.mkWorld
             {[ 1%positive := Heap.Dict [(str "milk", 2%positive)];
                2%positive := Heap.List [1; 2]%Z ]} ∅ in
  exists l w',
    Heap.query 1%positive [str "milk"; str "tea"; str "milk"] w = (Ok l, w') /\
    Heap.objects w !! l = None /\
    Heap.objects w' !! l =
      Some (Heap.List
              (spec_query [(str "milk", [1; 2]%Z)] [str "milk"; str "tea"; str "milk"])).
Proof.
  apply (heap_query_returns_new_list
           (Heap.mkWorld
              {[ 1%positive := Heap.Dict [(str "milk", 2%positive)];
                 2%positive := Heap.List [1; 2]%Z ]} ∅)
           1%positive [(str "milk", [1; 2]%Z)]).
  exists [(str "milk", 2%positive)]. split; [reflexivity|].
  repeat constructor.
Defined.
